(** * Todo Vibes: task ordering and reminder lifecycle

    A shallow embedding of the two pieces of logic of the application:
    - the comparator and the filter behind [filteredAndSortedTasks]
      (the home screen), and
    - the task operations of the [useTasks] hook together with
      [scheduleReminder] / [cancelReminder] of the [useNotifications] hook.

    Timestamps are JavaScript numbers holding integral milliseconds; they are
    embedded as [Z].  Only the sign of a comparator result is ever used. *)

From Stdlib Require Import ZArith NArith List String Bool Lia ZifyBool.
From Stdlib Require Import Permutation Sorted Relations.
From Stdlib Require Import DecimalString.
Import ListNotations.
Open Scope string_scope.
Open Scope list_scope.
Open Scope Z_scope.

(** ** Data model ([src/hooks/useTasks.ts]) *)

Inductive Priority := P1 | P2 | P3 | P4.

(** The numeric value of an enum member ([P1 = 1] ... [P4 = 4]). *)
Definition priorityValue (p : Priority) : Z :=
  match p with P1 => 1 | P2 => 2 | P3 => 3 | P4 => 4 end.

Record Task := mkTask {
  id : string;
  title : string;
  description : option string;
  completed : bool;
  createdAt : Z;
  dueDate : option Z;
  priority : Priority;
  projectId : string;
  notificationId : option string
}.

(** ** The fragment of JavaScript values the comparator computes with *)

Module Js.

Inductive value :=
| undefined
| number (z : Z)
| boolean (b : bool).

(** [ToBoolean]: [undefined] and [0] are falsy. *)
Definition truthy (v : value) : bool :=
  match v with
  | undefined => false
  | number z => negb (z =? 0)
  | boolean b => b
  end.

(** [x !== y]: values of different types are never strictly equal. *)
Definition strictNeq (x y : value) : bool :=
  match x, y with
  | undefined, undefined => false
  | number a, number b => negb (a =? b)
  | boolean a, boolean b => negb (Bool.eqb a b)
  | _, _ => true
  end.

(** [x < y] on an optional number and a number; [undefined] converts to
    [NaN], and every comparison with [NaN] is [false]. *)
Definition lt (x y : value) : value :=
  match x, y with
  | number a, number b => boolean (a <? b)
  | _, _ => boolean false
  end.

(** [x && y]: the left operand when it is falsy, otherwise the right one. *)
Definition and (x y : value) : value :=
  if truthy x then y else x.

(** An optional numeric field read from an object. *)
Definition field (o : option Z) : value :=
  match o with
  | None => undefined
  | Some z => number z
  end.

(** Truthiness of a [string | null | undefined]. *)
Definition truthyString (o : option string) : bool :=
  match o with
  | None => false
  | Some s => negb (String.eqb s "")
  end.

End Js.

(** ** The ordering policy ([filteredAndSortedTasks], home screen) *)

(** [a.dueDate && a.dueDate < now] *)
Definition overdueFlag (now : Z) (t : Task) : Js.value :=
  Js.and (Js.field (dueDate t)) (Js.lt (Js.field (dueDate t)) (Js.number now)).

(** The due date when [t.dueDate] is truthy. *)
Definition truthyDate (t : Task) : option Z :=
  match dueDate t with
  | Some d => if d =? 0 then None else Some d
  | None => None
  end.

(** The callback given to [result.sort]. *)
Definition compareTasks (now : Z) (a b : Task) : Z :=
  (* Completed last *)
  if negb (Bool.eqb (completed a) (completed b)) then
    (if completed a then 1 else -1)
  else
    (* Overdue check *)
    let aOverdue := overdueFlag now a in
    let bOverdue := overdueFlag now b in
    if Js.strictNeq aOverdue bOverdue then
      (if Js.truthy aOverdue then -1 else 1)
    (* Priority (1 is highest, so ascending order) *)
    else if negb (priorityValue (priority a) =? priorityValue (priority b)) then
      priorityValue (priority a) - priorityValue (priority b)
    else
      match truthyDate a, truthyDate b with
      | Some da, Some db => da - db            (* Due Date (earliest first) *)
      | Some _, None => -1                     (* Has date comes before no date *)
      | None, Some _ => 1
      | None, None => createdAt b - createdAt a   (* Created At (newest first) *)
      end.

(** [Array.prototype.sort] is a built-in, not code of the repository.  Here it
    is the stable straight insertion sort: each element in turn is moved to
    the left for as long as [comparefn (element, left neighbour)] is negative.
    ECMAScript fixes the result only for a consistent comparator, and there
    every stable sort gives the order of this loop; for any other comparator
    the order is left to the engine, and statements about the order on such
    lists are made further down for every sort procedure of a given kind
    ([comparisonSort], [conformingSort]), of which this loop is one. *)
Section Sort.

Context {A : Type}.
Variable comparefn : A -> A -> Z.

Definition less (x y : A) : bool := comparefn x y <? 0.

(** [sift x before]: [before] holds the elements to the left of [x], the
    nearest first; the result is the array up to [x]'s old position, again
    from right to left. *)
Fixpoint sift (x : A) (before : list A) : list A :=
  match before with
  | [] => [x]
  | y :: rest => if less x y then y :: sift x rest else x :: before
  end.

Definition sort (l : list A) : list A :=
  rev (fold_left (fun sorted x => sift x sorted) l []).

End Sort.

(** [selectedProjectId] is a [string | null]; the filter runs only when it is
    truthy. *)
Definition filteredAndSortedTasks
    (now : Z) (selectedProjectId : option string) (tasks : list Task) : list Task :=
  let result :=
    if Js.truthyString selectedProjectId then
      filter (fun t => match selectedProjectId with
                       | Some p => String.eqb (projectId t) p
                       | None => false      (* a truthy value is a string *)
                       end) tasks
    else tasks in
  sort (compareTasks now) result.

(** ** The world the hooks run in

    The hooks talk to three collaborators that are not code of the repository:
    the clock ([Date.now]), the notification scheduler of the platform
    ([Notifications.scheduleNotificationAsync] and
    [Notifications.cancelScheduledNotificationAsync]) and the key-value store
    ([AsyncStorage.setItem]).  Every call to the scheduler or the store is
    recorded in a trace; what the scheduler answers is supplied by the world.
    The clock counts milliseconds elapsed since the epoch and stands still
    during one operation. *)

Inductive Event :=
| ScheduleNotification (title' body : string) (date : Z)
| CancelNotification (identifier : string)
| SetItem (saved : list Task).

(** How a call of [scheduleNotificationAsync] settles. *)
Inductive Outcome :=
| Resolves (identifier : string)
| Rejects.

Record World := mkWorld {
  tasks : list Task;        (* the [tasks] state of [useTasks] *)
  clock : N;                (* milliseconds since the epoch *)
  outcomes : list Outcome;  (* answers of the scheduler still to come *)
  trace : list Event        (* calls made so far, oldest first *)
}.

Definition Hook (A : Type) : Type := World -> A * World.

Definition ret {A : Type} (a : A) : Hook A := fun w => (a, w).

Definition bind {A B : Type} (m : Hook A) (k : A -> Hook B) : Hook B :=
  fun w => let (a, w') := m w in k a w'.

Notation "x <- m ;; k" := (bind m (fun x => k))
  (at level 61, m at next level, right associativity).
Notation "m ;; k" := (bind m (fun _ => k))
  (at level 61, right associativity).

(** The state after running an operation. *)
Definition exec {A : Type} (m : Hook A) (w : World) : World := snd (m w).

(** The value an operation returns. *)
Definition eval {A : Type} (m : Hook A) (w : World) : A := fst (m w).

Definition Date_now : Hook Z := fun w => (Z.of_N (clock w), w).

Definition readTasks : Hook (list Task) := fun w => (tasks w, w).

Definition setTasks (l : list Task) : Hook unit :=
  fun w => (tt, mkWorld l (clock w) (outcomes w) (trace w)).

Definition call (e : Event) : Hook unit :=
  fun w => (tt, mkWorld (tasks w) (clock w) (outcomes w) (trace w ++ [e])).

Definition settle : Hook Outcome :=
  fun w =>
    match outcomes w with
    | [] => (Rejects, w)
    | o :: rest => (o, mkWorld (tasks w) (clock w) rest (trace w))
    end.

Definition scheduleNotificationAsync (title' body : string) (date : Z) : Hook Outcome :=
  call (ScheduleNotification title' body date) ;; settle.

(** ** [useNotifications] *)

Definition scheduleReminder (title' body : string) (date : Z) : Hook (option string) :=
  now <- Date_now ;;
  (* Only schedule if date is in the future *)
  if date <=? now then ret None
  else
    o <- scheduleNotificationAsync title' body date ;;
    match o with
    | Resolves identifier => ret (Some identifier)
    | Rejects => ret None            (* the [catch] branch *)
    end.

Definition cancelReminder (identifier : string) : Hook unit :=
  call (CancelNotification identifier).

(** ** [useTasks] *)

Definition saveTasks (newTasks : list Task) : Hook unit :=
  call (SetItem newTasks).

(** The identifier when [x] is truthy ([if (x) ...] on a [string | null]). *)
Definition truthyId (x : option string) : option string :=
  match x with
  | Some s => if String.eqb s "" then None else Some s
  | None => None
  end.

(** The condition [d && d > Date.now()]; it yields the date when it holds. *)
Definition future (d : option Z) : Hook (option Z) :=
  match d with
  | None => ret None
  | Some z =>
    if z =? 0 then ret None
    else now <- Date_now ;; ret (if z >? now then Some z else None)
  end.

(** [Number.prototype.toString] on an integer. *)
Definition toString (z : Z) : string := NilZero.string_of_int (Z.to_int z).

Definition orDefault {A : Type} (x : option A) (d : A) : A :=
  match x with Some a => a | None => d end.

(** [x !== y] on two optional numbers. *)
Definition dateNeq (x y : option Z) : bool :=
  match x, y with
  | None, None => false
  | Some a, Some b => negb (a =? b)
  | _, _ => true
  end.

Definition addTask (title' : string) (description' : option string)
    (dueDate' : option Z) (priority' : option Priority)
    (projectId' : option string) : Hook unit :=
  let priority' := orDefault priority' P4 in
  let projectId' := orDefault projectId' "inbox" in
  due <- future dueDate' ;;
  notificationId' <-
    match due with
    | Some d =>
      i <- scheduleReminder title' "Task is due now!" d ;;
      ret (truthyId i)
    | None => ret None
    end ;;
  idNow <- Date_now ;;
  createdNow <- Date_now ;;
  let newTask :=
    mkTask (toString idNow) title' description' false createdNow
           dueDate' priority' projectId' notificationId' in
  prevTasks <- readTasks ;;
  let updated := newTask :: prevTasks in
  saveTasks updated ;;
  setTasks updated.

(** [Array.prototype.findIndex]; [None] stands for [-1]. *)
Fixpoint findIndex {A : Type} (p : A -> bool) (l : list A) : option nat :=
  match l with
  | [] => None
  | x :: rest =>
    if p x then Some O
    else match findIndex p rest with
         | Some i => Some (S i)
         | None => None
         end
  end.

(** [l[i] = x] on a copy of [l], for an index inside the array. *)
Fixpoint assign {A : Type} (l : list A) (i : nat) (x : A) : list A :=
  match l, i with
  | [], _ => []
  | _ :: rest, O => x :: rest
  | y :: rest, S j => y :: assign rest j x
  end.

(** The real implementation of [updateTask]. *)
Definition updateTaskWithLogic (id' title' : string) (description' : option string)
    (dueDate' : option Z) (priority' : option Priority)
    (projectId' : option string) : Hook unit :=
  tasks <- readTasks ;;
  match findIndex (fun t => String.eqb (id t) id') tasks with
  | None => ret tt
  | Some taskIndex =>
    match nth_error tasks taskIndex with
    | None => ret tt      (* never taken: [findIndex] answers an index of the array *)
    | Some task =>
      notificationId' <-
        (* If due date changed, handle notification *)
        (if dateNeq dueDate' (dueDate task) then
           (* Cancel old *)
           kept <-
             match truthyId (notificationId task) with
             | Some old => cancelReminder old ;; ret None
             | None => ret (notificationId task)
             end ;;
           (* Schedule new *)
           due <- future dueDate' ;;
           match due with
           | Some d =>
             newId <- scheduleReminder title' "Task is due now!" d ;;
             ret (match truthyId newId with Some i => Some i | None => kept end)
           | None => ret kept
           end
         else
           match negb (String.eqb title' (title task)), truthyId (notificationId task) with
           | true, Some current =>
             due <- future (dueDate task) ;;
             match due with
             | Some d =>
               cancelReminder current ;;
               newId <- scheduleReminder title' "Task is due now!" d ;;
               ret (match truthyId newId with
                    | Some i => Some i
                    | None => notificationId task
                    end)
             | None => ret (notificationId task)
             end
           | _, _ => ret (notificationId task)
           end) ;;
      let updatedTask :=
        mkTask (id task) title' description' (completed task) (createdAt task)
               dueDate'
               (orDefault priority' (priority task))
               (orDefault projectId' (projectId task))
               notificationId' in
      let newTasks := assign tasks taskIndex updatedTask in
      setTasks newTasks ;;
      saveTasks newTasks
    end
  end.

(** [{ ...t, completed }] *)
Definition withCompleted (t : Task) (completed' : bool) : Task :=
  mkTask (id t) (title t) (description t) completed' (createdAt t)
         (dueDate t) (priority t) (projectId t) (notificationId t).

Definition toggleTask (id' : string) : Hook unit :=
  prevTasks <- readTasks ;;
  match find (fun t => String.eqb (id t) id') prevTasks with
  | None => ret tt                         (* [return prevTasks] *)
  | Some task =>
    let completed' := negb (completed task) in
    (* Side effect: Cancel/Schedule notification *)
    match completed', truthyId (notificationId task) with
    | true, Some current => cancelReminder current
    | true, None => ret tt
    | false, _ =>
      due <- future (dueDate task) ;;
      match due with
      | Some d =>
        (* the identifier goes to an empty [then] callback *)
        scheduleReminder (title task) "Task is due now!" d ;; ret tt
      | None => ret tt
      end
    end ;;
    let updated :=
      map (fun t => if String.eqb (id t) id' then withCompleted t completed' else t)
          prevTasks in
    saveTasks updated ;;
    setTasks updated
  end.

(** What the user does with the confirmation dialog of [deleteTask]. *)
Inductive Answer :=
| PressCancel
| PressDelete
| Dismiss.

Definition deleteTask (id' : string) (answer : Answer) : Hook unit :=
  match answer with
  | PressDelete =>
    prevTasks <- readTasks ;;
    match find (fun t => String.eqb (id t) id') prevTasks with
    | Some task =>
      match truthyId (notificationId task) with
      | Some current => cancelReminder current
      | None => ret tt
      end
    | None => ret tt
    end ;;
    let updated := filter (fun t => negb (String.eqb (id t) id')) prevTasks in
    saveTasks updated ;;
    setTasks updated
  | PressCancel | Dismiss => ret tt        (* no [onPress] handler runs *)
  end.

(** ** Vocabulary of the statements *)

(** [x] stands somewhere to the left of [y] in [l]. *)
Definition before {A : Type} (x y : A) (l : list A) : Prop :=
  exists l1 l2 l3, l = l1 ++ x :: l2 ++ y :: l3.

(** In an array read from right to left: everything to the left of a
    member of the class [P] is in the class. *)
Fixpoint fronted {A : Type} (P : A -> bool) (rl : list A) : Prop :=
  match rl with
  | [] => True
  | y :: rest => (P y = true -> Forall (fun z => P z = true) rest) /\ fronted P rest
  end.

(** In an array read from right to left: no element would move past its
    left neighbour. *)
Fixpoint settled {A : Type} (comparefn : A -> A -> Z) (rl : list A) : Prop :=
  match rl with
  | a :: (b :: _) as rest => less comparefn a b = false /\ settled comparefn rest
  | _ => True
  end.

(** The words of the specification: a task is overdue when its due date is
    strictly before the current time. *)
Definition dueBefore (now : Z) (t : Task) : bool :=
  match dueDate t with
  | Some d => d <? now
  | None => false
  end.

(** The test of the comparator: [a.dueDate && a.dueDate < now] is truthy. *)
Definition isOverdue (now : Z) (t : Task) : bool :=
  Js.truthy (overdueFlag now t).

(** The class the comparator puts first: not completed and overdue. *)
Definition pendingOverdue (now : Z) (t : Task) : bool :=
  negb (completed t) && isOverdue now t.

(** The class rule 1 puts first: not completed. *)
Definition pending (t : Task) : bool := negb (completed t).

(** The project filter of [filteredAndSortedTasks] as a predicate. *)
Definition selected (selectedProjectId : option string) (t : Task) : bool :=
  match selectedProjectId with
  | Some p => String.eqb (projectId t) p
  | None => false
  end.

(** The call that cancels the reminder of [t], when [t.notificationId] is
    truthy. *)
Definition cancellation (t : Task) : list Event :=
  match truthyId (notificationId t) with
  | Some old => [CancelNotification old]
  | None => []
  end.

(** A due date is given and is strictly after the current time. *)
Definition inFuture (w : World) (d : option Z) : bool :=
  match d with
  | Some z => Z.of_N (clock w) <? z
  | None => false
  end.

(** The call that schedules the reminder of a task for its due date. *)
Definition scheduling (title' : string) (d : option Z) : list Event :=
  match d with
  | Some z => [ScheduleNotification title' "Task is due now!" z]
  | None => []
  end.

(** The two fields no operation may change. *)
Definition identity (t : Task) : string * Z := (id t, createdAt t).

(** ** Sample data for the worked cases *)

Definition sampleNow : Z := 1700000000000.
Definition oneDay : Z := 86400000.
Definition oneHour : Z := 3600000.

(** Priority 4, due tomorrow. *)
Definition payRent : Task :=
  mkTask "1699990000000" "Pay rent" None false 1699990000000
         (Some (sampleNow + oneDay)) P4 "inbox" None.

(** Priority 1, no due date. *)
Definition callHome : Task :=
  mkTask "1699990000001" "Call home" None false 1699990000001
         None P1 "inbox" None.

(** A: priority 1, due tomorrow. *)
Definition taskA : Task :=
  mkTask "1699990000002" "A" None false 1699990000002
         (Some (sampleNow + oneDay)) P1 "inbox" None.

(** B: priority 2, due yesterday. *)
Definition taskB : Task :=
  mkTask "1699990000003" "B" None false 1699990000003
         (Some (sampleNow - oneDay)) P2 "inbox" None.

(** Priority 2, due at the epoch (timestamp 0). *)
Definition dueAtEpoch : Task :=
  mkTask "1699990000004" "Archive" None false 1699990000004
         (Some 0) P2 "inbox" None.

(** A completed task. *)
Definition doneTask : Task :=
  mkTask "1699990000005" "Done" None true 1699990000005
         None P1 "inbox" None.

(** Not completed, due in an hour, reminder ["reminder-1"] scheduled. *)
Definition submitReport : Task :=
  mkTask "1699990000006" "Submit report" None false 1699990000006
         (Some (sampleNow + oneHour)) P2 "work" (Some "reminder-1").

(** Completed, due in an hour, reminder identifier ["reminder-1"] stored. *)
Definition bookFlight : Task :=
  mkTask "1699990000007" "Book flight" None true 1699990000007
         (Some (sampleNow + oneHour)) P1 "personal" (Some "reminder-1").

Definition sampleWorld (l : list Task) : World :=
  mkWorld l 1700000000000%N [Resolves "reminder-2"] [].

(** ** Loading the saved list ([loadTasks], [src/hooks/useTasks.ts]) *)

Module Stored.

(** A record as [JSON.parse] hands it to [loadTasks]: the fields of a task,
    of which [priority] and [projectId] are missing in records that were
    written before these fields existed. *)
Record task := mk {
  id : string;
  title : string;
  description : option string;
  completed : bool;
  createdAt : Z;
  dueDate : option Z;
  priority : option Priority;
  projectId : option string;
  notificationId : option string
}.

End Stored.

(** What [AsyncStorage.getItem (STORAGE_KEY)] followed by [JSON.parse] gives. *)
Inductive Item :=
| Absent                              (* [getItem] resolves with [null] *)
| Unreadable                          (* [getItem] rejects or the text is no array *)
| Records (loaded : list Stored.task).

(** [{ ...t, priority: t.priority || Priority.P4,
       projectId: t.projectId || 'inbox' }] *)
Definition migrate (t : Stored.task) : Task :=
  mkTask (Stored.id t) (Stored.title t) (Stored.description t)
         (Stored.completed t) (Stored.createdAt t) (Stored.dueDate t)
         (orDefault (Stored.priority t) P4)
         (orDefault (truthyId (Stored.projectId t)) "inbox")
         (Stored.notificationId t).

(** The state of the [useTasks] hook: the world and the [loading] flag. *)
Record TasksHook := mkTasksHook {
  world : World;
  loading : bool
}.

(** [loadTasks], given what the store answers.  The [catch] branch only logs;
    the [finally] branch clears [loading]. *)
Definition loadTasks (item : Item) (h : TasksHook) : TasksHook :=
  match item with
  | Records loadedTasks =>
    mkTasksHook (exec (setTasks (map migrate loadedTasks)) (world h)) false
  | Absent | Unreadable => mkTasksHook (world h) false
  end.

(** The record [JSON.parse] reads back from what [JSON.stringify] wrote for a
    task: every field that is not [undefined] is there. *)
Definition written (t : Task) : Stored.task :=
  Stored.mk (id t) (title t) (description t) (completed t) (createdAt t)
            (dueDate t) (Some (priority t)) (Some (projectId t))
            (notificationId t).

(** ** The home screen and the task form ([App], [AddTaskModal]) *)

(** The state of [App] besides the hook: whether the form is open and, when a
    task is being edited, that task as it was rendered. *)
Record App := mkApp {
  hook : World;
  modalVisible : bool;
  editingTask : option Task
}.

Definition handleAddTask (app : App) : App :=
  mkApp (hook app) true None.

Definition handleEditTask (task : Task) (app : App) : App :=
  mkApp (hook app) true (Some task).

(** [handleSubmitTask]: an update of the task being edited, or an add. *)
Definition handleSubmitTask (title' : string) (description' : option string)
    (dueDate' : option Z) (priority' : option Priority)
    (projectId' : option string) (app : App) : App :=
  match editingTask app with
  | Some task =>
    mkApp (exec (updateTaskWithLogic (id task) title' description' dueDate'
                                     priority' projectId') (hook app))
          (modalVisible app) (editingTask app)
  | None =>
    mkApp (exec (addTask title' description' dueDate' priority' projectId')
                (hook app))
          (modalVisible app) (editingTask app)
  end.

(** [onClose]: [setModalVisible (false)]. *)
Definition closeModal (app : App) : App :=
  mkApp (hook app) false (editingTask app).

Module Form.

(** The fields of the form; the due date is a [Date], held as its time
    value. *)
Record state := mk {
  title : string;
  description : string;
  dueDate : option Z;
  priority : Priority;
  projectId : string
}.

End Form.

(** The effect that fills the form when it becomes visible. *)
Definition formFor (initialTask : option Task) : Form.state :=
  match initialTask with
  | Some t =>
    Form.mk (title t)
            (orDefault (truthyId (description t)) "")   (* [description || ''] *)
            (truthyDate t)     (* [dueDate ? new Date (dueDate) : undefined] *)
            (priority t)
            (projectId t)
  | None => Form.mk "" "" None P4 "inbox"
  end.

Section Modal.

(** [String.prototype.trim], a built-in. *)
Variable trim : string -> string.

(** [handleSave]: nothing happens while the trimmed title is empty;
    otherwise the form is submitted and the modal closed. *)
Definition handleSave (form : Form.state) (app : App) : App :=
  if String.eqb (trim (Form.title form)) "" then app
  else
    closeModal
      (handleSubmitTask (Form.title form) (Some (Form.description form))
                        (Form.dueDate form) (Some (Form.priority form))
                        (Some (Form.projectId form)) app).

End Modal.

(** ** The list item ([TaskItem]) *)

Module TaskItem.

Definition getPriorityColor (p : Priority) : string :=
  match p with
  | P1 => "#FF5252"   (* Red *)
  | P2 => "#FF9800"   (* Orange *)
  | P3 => "#2196F3"   (* Blue *)
  | P4 => "#888"      (* Grey *)
  end.

Section Item.

(** Built-ins: the calendar fields of a [Date] in local time, and
    [toLocaleDateString ('en-US', { month: 'short', day: 'numeric' })]. *)
Variables getDate getMonth getFullYear : Z -> Z.
Variable toLocaleDateString : Z -> string.

(** [formatDate]; [now] is the time value of [new Date ()]. *)
Definition formatDate (now : Z) (timestamp : option Z) : option string :=
  match timestamp with
  | None => None
  | Some ts =>
    if ts =? 0 then None
    else
      let isToday :=
        (getDate ts =? getDate now) && (getMonth ts =? getMonth now)
        && (getFullYear ts =? getFullYear now) in
      if isToday then Some "Today" else Some (toLocaleDateString ts)
  end.

(** Whether the date of the item is painted as overdue: the truthiness of
    [task.dueDate && task.dueDate < Date.now () && !task.completed
     && dateString !== 'Today']. *)
Definition isOverdue (now : Z) (task : Task) : bool :=
  Js.truthy (overdueFlag now task)
  && negb (completed task)
  && match formatDate now (dueDate task) with
     | Some dateString => negb (String.eqb dateString "Today")
     | None => true
     end.

End Item.

End TaskItem.

Module AddTaskModal.

Definition getPriorityColor (p : Priority) : string :=
  match p with
  | P1 => "#FF5252"
  | P2 => "#FF9800"
  | P3 => "#2196F3"
  | P4 => "#888"
  end.

End AddTaskModal.

(** ** The projects ([DEFAULT_PROJECTS], [src/hooks/useTasks.ts]) *)

Module Project.

Record t := mk {
  id : string;
  name : string;
  color : string
}.

End Project.

Definition DEFAULT_PROJECTS : list Project.t :=
  [ Project.mk "inbox" "Inbox" "#808080";
    Project.mk "personal" "Personal" "#4CAF50";
    Project.mk "work" "Work" "#2196F3";
    Project.mk "shopping" "Shopping" "#FF9800" ].

(** The project reference is the identifier of one of the projects. *)
Definition resolves (reference : string) : bool :=
  existsb (fun p => String.eqb (Project.id p) reference) DEFAULT_PROJECTS.

(** ** Further vocabulary *)

(** The tasks the home screen shows for a project filter: all of them when
    the filter is [null] or the empty string. *)
Definition shown (selectedProjectId : option string) (t : Task) : bool :=
  match truthyId selectedProjectId with
  | Some p => String.eqb (projectId t) p
  | None => true
  end.

(** An operation ended by handing the list it left in memory to the store. *)
Definition savedLast (before' after : World) : Prop :=
  exists calls, trace after = trace before' ++ calls ++ [SetItem (tasks after)].

(** A task with its completion flag blanked. *)
Definition unflagged (t : Task) : Task := withCompleted t false.

(** No task stores the empty string as a reminder identifier. *)
Definition identifiersTruthy (l : list Task) : Prop :=
  Forall (fun t => notificationId t <> Some "") l.

(** The task has a due date that the code reads as one (not timestamp 0). *)
Definition dated (t : Task) : Prop := truthyDate t <> None.

(** The task has no due date. *)
Definition undated (t : Task) : Prop := dueDate t = None.

(** ** [Array.prototype.sort] in general

    The engine's sort is not one particular loop.  The statements about the
    order of mixed lists are made for every procedure of a kind, and five
    procedures are shown further down to be of both kinds: the two insertion
    loops, binary insertion, binary insertion after a leading run, and
    bottom-up merge sort. *)

(** A sort procedure, for every element type. *)
Definition Sorter : Type := forall A : Type, (A -> A -> Z) -> list A -> list A.

(** One answer of the comparator that lets [a] stand to the left of [b]:
    asked as [comparefn (a, b)] it was not positive, or asked as
    [comparefn (b, a)] it was not negative. *)
Definition backs {A : Type} (comparefn : A -> A -> Z) (a b : A) : Prop :=
  comparefn a b <= 0 \/ 0 <= comparefn b a.

(** A comparison sort: the result is a rearrangement of the array, and
    wherever one element ends up to the left of another a chain of comparator
    answers leads from the first to the second.  Insertion, binary insertion,
    merge and partition sorts place elements on the strength of such answers
    only, whether the comparator is consistent or not. *)
Definition comparisonSort (sorter : Sorter) : Prop :=
  forall (A : Type) (comparefn : A -> A -> Z) (l : list A),
    Permutation l (sorter A comparefn l) /\
    forall x y, before x y (sorter A comparefn l) ->
                clos_trans A (backs comparefn) x y.

(** [comparefn] is a consistent comparison function for the elements of
    [l]: the two ways round of asking agree, and "not greater" is
    transitive. *)
Definition consistentOn {A : Type} (comparefn : A -> A -> Z) (l : list A) : Prop :=
  (forall a b, In a l -> In b l -> (comparefn a b < 0 <-> 0 < comparefn b a)) /\
  (forall a b c, In a l -> In b l -> In c l ->
     comparefn a b <= 0 -> comparefn b c <= 0 -> comparefn a c <= 0).

(** No element of [out] compares greater than one to its right. *)
Definition sortedBy {A : Type} (comparefn : A -> A -> Z) (out : list A) : Prop :=
  forall x y, before x y out -> comparefn x y <= 0.

(** Elements that compare equal are in [out] in the order they have in [l]. *)
Definition keepsTies {A : Type} (comparefn : A -> A -> Z) (l out : list A) : Prop :=
  forall c, In c l ->
    filter (fun z => comparefn c z =? 0) out = filter (fun z => comparefn c z =? 0) l.

(** What ECMAScript requires of [Array.prototype.sort]: when the comparator
    is consistent for the elements of the array, the result is a
    rearrangement, sorted by the comparator, and stable.  Nothing is required
    otherwise. *)
Definition conformingSort (sorter : Sorter) : Prop :=
  forall (A : Type) (comparefn : A -> A -> Z) (l : list A),
    consistentOn comparefn l ->
    Permutation l (sorter A comparefn l) /\
    sortedBy comparefn (sorter A comparefn l) /\
    keepsTies comparefn l (sorter A comparefn l).

(** [filteredAndSortedTasks] with the sort procedure of the engine as a
    parameter. *)
Definition filteredAndSortedTasksBy (sorter : Sorter)
    (now : Z) (selectedProjectId : option string) (tasks : list Task) : list Task :=
  let result :=
    if Js.truthyString selectedProjectId then
      filter (fun t => match selectedProjectId with
                       | Some p => String.eqb (projectId t) p
                       | None => false
                       end) tasks
    else tasks in
  sorter Task (compareTasks now) result.

(** The insertion loop [sort] as a sort procedure. *)
Definition insertionSort : Sorter := fun A => @sort A.

(** ** Two more insertion loops *)

Section OtherLoops.

Context {A : Type}.
Variable comparefn : A -> A -> Z.

(** The insertion loop with the comparator asked the other way round: an
    element moves to the left for as long as
    [comparefn (left neighbour, element)] is positive. *)
Fixpoint siftPast (x : A) (before : list A) : list A :=
  match before with
  | [] => [x]
  | y :: rest => if 0 <? comparefn y x then y :: siftPast x rest else x :: before
  end.

Definition sortByGreater (l : list A) : list A :=
  rev (fold_left (fun sorted x => siftPast x sorted) l []).

(** The comparator asked the other way round, with the sign changed. *)
Definition turned (x y : A) : Z := - comparefn y x.

(** Binary insertion: the place of [pivot] in the sorted part is found by
    halving; [pivot] goes to the left of the middle element when
    [comparefn (pivot, middle)] is negative and to its right otherwise.  The
    fuel is the length of the sorted part, which is more halvings than the
    search can make. *)
Fixpoint binaryInsert (fuel : nat) (pivot : A) (sorted : list A) : list A :=
  match sorted, fuel with
  | [], _ => [pivot]
  | _, O => sorted ++ [pivot]
  | _, S fuel' =>
    let mid := Nat.div2 (List.length sorted) in
    match skipn mid sorted with
    | [] => sorted ++ [pivot]
    | middle :: above =>
      if comparefn pivot middle <? 0
      then binaryInsert fuel' pivot (firstn mid sorted) ++ middle :: above
      else firstn mid sorted ++ middle :: binaryInsert fuel' pivot above
    end
  end.

Definition binarySort (l : list A) : list A :=
  fold_left (fun sorted pivot => binaryInsert (List.length sorted) pivot sorted) l [].

End OtherLoops.

Definition insertionSortByGreater : Sorter := fun A => @sortByGreater A.

Definition binaryInsertionSort : Sorter := fun A => @binarySort A.

(** ** Two more sort procedures: merging, and a leading run *)

Section MoreLoops.

Context {A : Type}.
Variable comparefn : A -> A -> Z.

(** Merging two sorted runs that stand side by side: the head of the upper
    run is taken when [comparefn (upper head, lower head)] is negative, the
    head of the lower run otherwise. *)
Fixpoint merge (lower upper : list A) : list A :=
  let fix mergeInto (upper : list A) : list A :=
    match lower, upper with
    | [], _ => upper
    | _, [] => lower
    | a :: lower', b :: upper' =>
      if comparefn b a <? 0 then b :: mergeInto upper' else a :: merge lower' upper
    end
  in mergeInto upper.

(** One pass over the array: neighbouring runs are merged two by two. *)
Fixpoint mergePairs (runs : list (list A)) : list (list A) :=
  match runs with
  | lower :: upper :: rest => merge lower upper :: mergePairs rest
  | _ => runs
  end.

(** Passes are made until one run is left.  Each pass makes the runs fewer,
    so the number of elements is more passes than are needed. *)
Fixpoint mergeAll (fuel : nat) (runs : list (list A)) : list A :=
  match runs, fuel with
  | [], _ => []
  | [run], _ => run
  | _, O => List.concat runs
  | _, S fuel' => mergeAll fuel' (mergePairs runs)
  end.

(** Bottom-up merge sort: the runs of the first pass are the single
    elements. *)
Definition mergeSortBottomUp (l : list A) : list A :=
  mergeAll (List.length l) (map (fun x => [x]) l).

(** The run at the start of the array, after its first two elements: it goes
    on for as long as [comparefn (element, previous element)] is not negative
    (ascending), or for as long as it is negative (strictly descending). *)
Fixpoint runAscending (previous : A) (rest : list A) : list A * list A :=
  match rest with
  | [] => ([], [])
  | x :: rest' =>
    if comparefn x previous <? 0 then ([], rest)
    else let (run, others) := runAscending x rest' in (x :: run, others)
  end.

Fixpoint runDescending (previous : A) (rest : list A) : list A * list A :=
  match rest with
  | [] => ([], [])
  | x :: rest' =>
    if comparefn x previous <? 0
    then let (run, others) := runDescending x rest' in (x :: run, others)
    else ([], rest)
  end.

(** The leading run, reversed when it is descending, and the elements after
    it. *)
Definition countAndMakeRun (l : list A) : list A * list A :=
  match l with
  | a :: b :: rest =>
    if comparefn b a <? 0
    then let (run, others) := runDescending b rest in (rev (a :: b :: run), others)
    else let (run, others) := runAscending b rest in (a :: b :: run, others)
  | _ => (l, [])
  end.

(** What a merge sort by natural runs does with an array too short to be cut
    into several runs: the leading run is taken as the sorted part and the
    other elements are put into it by binary insertion. *)
Definition runSort (l : list A) : list A :=
  let (run, others) := countAndMakeRun l in
  fold_left (fun sorted pivot => binaryInsert comparefn (List.length sorted) pivot sorted)
            others run.

End MoreLoops.

Definition mergeSort : Sorter := fun A => @mergeSortBottomUp A.

Definition runThenBinaryInsertionSort : Sorter := fun A => @runSort A.

(** ** Two tasks added in the same millisecond *)

(** Nothing stored yet; the scheduler will answer two calls. *)
Definition emptyWorld : World :=
  mkWorld [] 1700000000000%N [Resolves "reminder-a"; Resolves "reminder-b"] [].

(** "Buy milk" is added, then "Water plants", while [Date.now()] still
    returns the same number. *)
Definition twinWorld : World :=
  exec (addTask "Water plants" None (Some (sampleNow + oneHour)) None None)
    (exec (addTask "Buy milk" None (Some (sampleNow + oneDay)) None None)
       emptyWorld).

Definition buyMilk : Task :=
  mkTask "1700000000000" "Buy milk" None false 1700000000000
         (Some (sampleNow + oneDay)) P4 "inbox" (Some "reminder-a").

Definition waterPlants : Task :=
  mkTask "1700000000000" "Water plants" None false 1700000000000
         (Some (sampleNow + oneHour)) P4 "inbox" (Some "reminder-b").

(** * Properties *)

(** ** The insertion sort *)

Section SortFacts.

Context {A : Type}.
Variable comparefn : A -> A -> Z.

Local Abbreviation lt := (less comparefn).
Local Abbreviation insert := (sift comparefn).
Local Abbreviation run := (fold_left (fun sorted x => sift comparefn x sorted)).

Lemma sift_perm (x : A) (l : list A) : Permutation (insert x l) (x :: l).
Proof.
  induction l as [|y l IH]; simpl; [reflexivity|].
  destruct (lt x y); [|reflexivity].
  rewrite IH. apply perm_swap.
Qed.

Lemma run_perm (l acc : list A) : Permutation (run l acc) (l ++ acc).
Proof.
  revert acc; induction l as [|x l IH]; intros acc; simpl; [reflexivity|].
  rewrite IH, sift_perm. symmetry. apply Permutation_middle.
Qed.

Lemma sort_perm (l : list A) : Permutation (sort comparefn l) l.
Proof.
  unfold sort. rewrite <- Permutation_rev, run_perm, app_nil_r. reflexivity.
Qed.

Lemma sort_rev_run (l : list A) : rev (sort comparefn l) = run l [].
Proof. unfold sort. apply rev_involutive. Qed.

(** *** A class of elements that the comparator puts in front *)
Section Dominant.

Variable P : A -> bool.
Hypothesis dominant :
  forall x y, P x = true -> P y = false -> lt x y = true /\ lt y x = false.

Local Abbreviation fronted := (fronted P).

Lemma fronted_sift (x : A) (rl : list A) : fronted rl -> fronted (insert x rl).
Proof.
  induction rl as [|y rest IH]; simpl.
  - intros _. split; [constructor | exact I].
  - intros [Hy Hrest]. destruct (lt x y) eqn:Hxy; simpl.
    + split; [|auto].
      intros Py. specialize (Hy Py).
      assert (Px : P x = true).
      { destruct (P x) eqn:Px; [reflexivity|].
        destruct (dominant y x Py Px) as [_ H]. congruence. }
      eapply Permutation_Forall; [symmetry; apply sift_perm|].
      constructor; assumption.
    + split; [|split; assumption].
      intros Px.
      assert (Py : P y = true).
      { destruct (P y) eqn:Py; [reflexivity|].
        destruct (dominant x y Px Py) as [H _]. congruence. }
      constructor; auto.
Qed.

Lemma fronted_run (l acc : list A) : fronted acc -> fronted (run l acc).
Proof.
  revert acc; induction l as [|x l IH]; intros acc H; simpl; auto using fronted_sift.
Qed.

Lemma fronted_app (u v : list A) (y : A) :
  fronted (u ++ y :: v) -> P y = true -> Forall (fun z => P z = true) v.
Proof.
  induction u as [|a u IH]; simpl; intros [H Hrest] Py; auto.
Qed.

(** In the sorted array no element outside the class stands to the left
    of a member of the class. *)
Lemma sort_fronted (l : list A) (x y : A) :
  before x y (sort comparefn l) -> P y = true -> P x = true.
Proof.
  intros (l1 & l2 & l3 & E) Py.
  assert (F : fronted (rev (sort comparefn l))).
  { rewrite sort_rev_run. apply fronted_run. exact I. }
  rewrite E in F.
  replace (l1 ++ x :: l2 ++ y :: l3) with ((l1 ++ x :: l2) ++ y :: l3) in F
    by (rewrite <- app_assoc; reflexivity).
  rewrite rev_app_distr in F. simpl in F. rewrite <- app_assoc in F. simpl in F.
  pose proof (fronted_app _ _ _ F Py) as Hall.
  rewrite Forall_forall in Hall. apply Hall.
  rewrite <- in_rev. apply in_or_app. right. left. reflexivity.
Qed.

End Dominant.

(** *** Sorting a sorted array again *)
Section Idempotent.

Hypothesis asym : forall x y, lt x y = true -> lt y x = false.

Local Abbreviation settled := (settled comparefn).

Lemma sift_settled_head (x : A) (rl : list A) :
  settled (x :: rl) -> insert x rl = x :: rl.
Proof.
  destruct rl as [|y rest]; simpl; [reflexivity|].
  intros [H _]. rewrite H. reflexivity.
Qed.

Lemma settled_sift (x : A) (rl : list A) : settled rl -> settled (insert x rl).
Proof.
  induction rl as [|y rest IH]; [intros _; exact I|].
  intros H. simpl. destruct (lt x y) eqn:Hxy.
  - assert (Hrest : settled rest) by (destruct rest; [exact I | apply H]).
    specialize (IH Hrest).
    destruct rest as [|z rest']; simpl in *.
    + split; [apply asym; assumption | exact I].
    + destruct (lt x z) eqn:Hxz.
      * split; [apply H | exact IH].
      * split; [apply asym; assumption | exact IH].
  - split; assumption.
Qed.

Lemma settled_run (l acc : list A) : settled acc -> settled (run l acc).
Proof.
  revert acc; induction l as [|x l IH]; intros acc H; simpl; auto using settled_sift.
Qed.

Lemma settled_app_r (u v : list A) : settled (u ++ v) -> settled v.
Proof.
  induction u as [|a u IH]; [trivial|].
  intros H. apply IH. simpl in H.
  destruct (u ++ v); [exact I | apply H].
Qed.

Lemma run_settled (l acc : list A) :
  settled (rev l ++ acc) -> run l acc = rev l ++ acc.
Proof.
  revert acc; induction l as [|x l IH]; intros acc H; simpl; [reflexivity|].
  simpl in H. rewrite <- app_assoc in H. simpl in H.
  rewrite sift_settled_head by (eapply settled_app_r; exact H).
  rewrite IH by exact H. rewrite <- app_assoc. reflexivity.
Qed.

Lemma sort_idempotent (l : list A) :
  sort comparefn (sort comparefn l) = sort comparefn l.
Proof.
  unfold sort at 1. rewrite run_settled.
  - rewrite app_nil_r. apply rev_involutive.
  - rewrite app_nil_r, sort_rev_run. apply settled_run. exact I.
Qed.

End Idempotent.

(** *** A consistent comparator: the loop sorts *)
Section Consistent.

Hypothesis asym : forall x y, lt x y = true -> lt y x = false.
Hypothesis trans :
  forall x y z, lt y x = false -> lt z y = false -> lt z x = false.

Local Abbreviation descending := (StronglySorted (fun a b => lt a b = false)).

Lemma descending_sift (x : A) (rl : list A) :
  descending rl -> descending (insert x rl).
Proof.
  induction rl as [|y rest IH]; simpl; intros H.
  - repeat constructor.
  - apply StronglySorted_inv in H. destruct H as [Hrest Hy].
    destruct (lt x y) eqn:Hxy.
    + constructor; [auto|].
      eapply Permutation_Forall; [symmetry; apply sift_perm|].
      constructor; [apply asym; exact Hxy | exact Hy].
    + constructor; [constructor; assumption|].
      constructor; [exact Hxy|].
      rewrite Forall_forall in *. intros b Hb.
      apply (trans b y x); auto.
Qed.

Lemma descending_run (l acc : list A) : descending acc -> descending (run l acc).
Proof.
  revert acc; induction l as [|x l IH]; intros acc H; simpl; auto using descending_sift.
Qed.

Lemma descending_app_r (u v : list A) : descending (u ++ v) -> descending v.
Proof.
  induction u as [|a u IH]; simpl; [trivial|].
  intros H. apply StronglySorted_inv in H. apply IH, H.
Qed.

(** No element of the sorted array is greater than one to its right. *)
Lemma sort_sorted (l : list A) (x y : A) :
  before x y (sort comparefn l) -> lt y x = false.
Proof.
  intros (l1 & l2 & l3 & E).
  assert (D : descending (rev (sort comparefn l))).
  { rewrite sort_rev_run. apply descending_run. constructor. }
  rewrite E in D.
  replace (l1 ++ x :: l2 ++ y :: l3) with ((l1 ++ x :: l2) ++ y :: l3) in D
    by (rewrite <- app_assoc; reflexivity).
  rewrite rev_app_distr in D. simpl in D. rewrite <- app_assoc in D. simpl in D.
  apply descending_app_r, StronglySorted_inv in D. destruct D as [_ D].
  rewrite Forall_forall in D. apply D.
  rewrite <- in_rev. apply in_or_app. right. left. reflexivity.
Qed.

End Consistent.

End SortFacts.

(** ** The comparator *)

Ltac unfold_compare :=
  unfold less, compareTasks, pendingOverdue, pending, isOverdue, dueBefore,
    overdueFlag, truthyDate, Js.and, Js.lt, Js.field, Js.truthy, Js.strictNeq in *.

Ltac split_ifs :=
  repeat match goal with
         | |- context [if ?c then _ else _] => destruct c eqn:?
         | H : context [if ?c then _ else _] |- _ => destruct c eqn:?
         end.

Ltac compare_cases a b :=
  unfold_compare;
  destruct (completed a), (completed b), (dueDate a), (dueDate b);
  simpl in *; split_ifs; simpl in *; try discriminate; try lia.

(** A negative answer one way round is never negative the other way round. *)
Lemma compareTasks_asym (now : Z) (a b : Task) :
  less (compareTasks now) a b = true -> less (compareTasks now) b a = false.
Proof. compare_cases a b. Qed.

Lemma pending_dominant (now : Z) (x y : Task) :
  pending x = true -> pending y = false ->
  less (compareTasks now) x y = true /\ less (compareTasks now) y x = false.
Proof. compare_cases x y; split; reflexivity. Qed.

Lemma pendingOverdue_dominant (now : Z) (x y : Task) :
  pendingOverdue now x = true -> pendingOverdue now y = false ->
  less (compareTasks now) x y = true /\ less (compareTasks now) y x = false.
Proof. compare_cases x y; split; reflexivity. Qed.

Lemma isOverdue_dueBefore (now : Z) (t : Task) :
  isOverdue now t = true -> dueBefore now t = true.
Proof. unfold_compare. destruct (dueDate t); simpl; split_ifs; simpl; congruence. Qed.

Lemma dueBefore_isOverdue (now : Z) (t : Task) :
  dueBefore now t = true -> dueDate t <> Some 0 -> isOverdue now t = true.
Proof.
  unfold_compare. destruct (dueDate t) as [d|]; simpl; [|discriminate].
  intros H N. destruct (Z.eqb_spec d 0) as [->|_]; [congruence|]. exact H.
Qed.

(** ** Lists *)

Lemma filter_all {A : Type} (p : A -> bool) (l : list A) :
  Forall (fun x => p x = true) l -> filter p l = l.
Proof.
  induction 1 as [|x l Hx _ IH]; simpl; [reflexivity|].
  rewrite Hx, IH. reflexivity.
Qed.


(** Of two different members of a list one stands to the left of the other. *)
Lemma in_in_before {A : Type} (x y : A) (l : list A) :
  In x l -> In y l -> x <> y -> before x y l \/ before y x l.
Proof.
  intros Hx Hy Hne.
  destruct (in_split _ _ Hx) as (l1 & l2 & ->).
  apply in_app_or in Hy. destruct Hy as [Hy | [Hy | Hy]].
  - right. destruct (in_split _ _ Hy) as (m1 & m2 & ->).
    exists m1, m2, l2. rewrite <- app_assoc. reflexivity.
  - congruence.
  - left. destruct (in_split _ _ Hy) as (m1 & m2 & ->).
    exists l1, m1, m2. reflexivity.
Qed.

(** ** The ordering policy *)

Lemma filteredAndSortedTasks_perm (now : Z) (sel : option string) (l : list Task) :
  Permutation (filteredAndSortedTasks now sel l)
              (if Js.truthyString sel then filter (selected sel) l else l).
Proof.
  unfold filteredAndSortedTasks. rewrite sort_perm.
  destruct (Js.truthyString sel); reflexivity.
Qed.

Lemma filteredAndSortedTasks_fronted (now : Z) (P : Task -> bool) :
  (forall x y, P x = true -> P y = false ->
     less (compareTasks now) x y = true /\ less (compareTasks now) y x = false) ->
  forall sel l x y,
    before x y (filteredAndSortedTasks now sel l) -> P y = true -> P x = true.
Proof.
  intros dom sel l x y. unfold filteredAndSortedTasks.
  apply sort_fronted. exact dom.
Qed.

(** Two tasks sorted on their own when the comparator puts [y] before [x]. *)
Lemma sort_pair (now : Z) (x y : Task) :
  less (compareTasks now) y x = true -> less (compareTasks now) x y = false ->
  sort (compareTasks now) [x; y] = [y; x] /\ sort (compareTasks now) [y; x] = [y; x].
Proof.
  intros Hyx Hxy. unfold sort. simpl. rewrite Hyx, Hxy. split; reflexivity.
Qed.

(** C2 as stated fails for a due date at timestamp 0: [dueAtEpoch] is not
    completed and its due date is strictly before the current time, [taskA]
    is not completed and is not overdue, the comparator answers 1 whichever
    way round it is asked, and [taskA] stays to the left of [dueAtEpoch]. *)
Lemma overdue_at_epoch_not_first :
  completed taskA = false /\ completed dueAtEpoch = false /\
  dueBefore sampleNow dueAtEpoch = true /\ dueBefore sampleNow taskA = false /\
  compareTasks sampleNow taskA dueAtEpoch = 1 /\
  compareTasks sampleNow dueAtEpoch taskA = 1 /\
  filteredAndSortedTasks sampleNow None [taskA; dueAtEpoch] = [taskA; dueAtEpoch].
Proof. repeat split; vm_compute; reflexivity. Qed.

(** C1 at its failing input.  [payRent] (priority 4, due tomorrow) and
    [callHome] (priority 1, no due date) are both not completed and both not
    overdue, yet the comparator never reaches its priority test: the overdue
    flags are [false] and [undefined], which [!==] tells apart, and the
    answer is 1 whichever way round the two are compared.  The task of
    priority 4 stays to the left of the task of priority 1. *)
Theorem priority_skipped_between_dated_and_undated :
  completed payRent = completed callHome /\
  dueBefore sampleNow payRent = false /\ dueBefore sampleNow callHome = false /\
  priorityValue (priority callHome) < priorityValue (priority payRent) /\
  overdueFlag sampleNow payRent = Js.boolean false /\
  overdueFlag sampleNow callHome = Js.undefined /\
  compareTasks sampleNow payRent callHome = 1 /\
  compareTasks sampleNow callHome payRent = 1 /\
  filteredAndSortedTasks sampleNow None [payRent; callHome] = [payRent; callHome].
Proof. repeat split; vm_compute; reflexivity. Qed.

(** ** Arrays *)

Lemma findIndex_Some {A : Type} (p : A -> bool) (l : list A) (i : nat) :
  findIndex p l = Some i -> exists x, nth_error l i = Some x /\ p x = true.
Proof.
  revert i; induction l as [|y l IH]; simpl; intros i H; [discriminate|].
  destruct (p y) eqn:Py.
  - injection H as <-. exists y. split; [reflexivity | exact Py].
  - destruct (findIndex p l) as [j|]; [|discriminate].
    injection H as <-. apply IH. reflexivity.
Qed.

Lemma findIndex_None {A : Type} (p : A -> bool) (l : list A) :
  (forall x, In x l -> p x = false) -> findIndex p l = None.
Proof.
  induction l as [|y l IH]; simpl; intros H; [reflexivity|].
  rewrite (H y) by (left; reflexivity).
  rewrite IH by (intros x Hx; apply H; right; exact Hx). reflexivity.
Qed.

Lemma find_None {A : Type} (p : A -> bool) (l : list A) :
  (forall x, In x l -> p x = false) -> find p l = None.
Proof.
  induction l as [|y l IH]; simpl; intros H; [reflexivity|].
  rewrite (H y) by (left; reflexivity).
  apply IH. intros x Hx. apply H. right. exact Hx.
Qed.

Lemma nth_error_assign {A : Type} (l : list A) (i : nat) (x y : A) :
  nth_error l i = Some y -> nth_error (assign l i x) i = Some x.
Proof.
  revert i; induction l as [|z l IH]; intros [|i]; simpl; try discriminate; auto.
Qed.

Lemma map_assign {A B : Type} (f : A -> B) (l : list A) (i : nat) (x y : A) :
  nth_error l i = Some y -> f x = f y -> map f (assign l i x) = map f l.
Proof.
  revert i; induction l as [|z l IH]; intros [|i]; simpl; try discriminate.
  - intros [= ->] ->. reflexivity.
  - intros H E. rewrite (IH i H E). reflexivity.
Qed.

Lemma id_absent (id' : string) (l : list Task) :
  ~ In id' (map id l) -> forall t, In t l -> String.eqb (id t) id' = false.
Proof.
  intros H t Ht. apply String.eqb_neq. intros E. apply H.
  rewrite <- E. apply in_map. exact Ht.
Qed.

(** ** The task operations *)

Ltac hook_unfold :=
  unfold exec, eval, addTask, updateTaskWithLogic, toggleTask, deleteTask,
    scheduleReminder, scheduleNotificationAsync, cancelReminder, saveTasks,
    future, settle, call, setTasks, readTasks, Date_now, bind, ret in *.

(** Name the result of the next sub-computation. *)
Ltac step :=
  match goal with
  | |- context [let (_, _) := ?m in _] => destruct m as [? ?] eqn:?
  end.

Lemma dateNeq_true (x y : option Z) : x <> y -> dateNeq x y = true.
Proof.
  destruct x as [a|], y as [b|]; simpl; intros H; try reflexivity; try congruence.
  destruct (Z.eqb_spec a b); [congruence | reflexivity].
Qed.

Lemma map_toggle (id' : string) (c : bool) (l : list Task) :
  map identity
      (map (fun t => if String.eqb (id t) id' then withCompleted t c else t) l)
  = map identity l.
Proof.
  rewrite map_map. apply map_ext. intros t.
  destruct (String.eqb (id t) id'); reflexivity.
Qed.

(** C9.  After an update and after a toggle every task of the list has the
    identifier and the creation timestamp it had before, position by
    position. *)
Theorem update_toggle_keep_identity
    (w : World) (id' title' : string) (description' : option string)
    (dueDate' : option Z) (priority' : option Priority) (projectId' : option string) :
  map identity
      (tasks (exec (updateTaskWithLogic id' title' description' dueDate'
                                        priority' projectId') w))
  = map identity (tasks w) /\
  map identity (tasks (exec (toggleTask id') w)) = map identity (tasks w).
Proof.
  split.
  - unfold updateTaskWithLogic, exec, bind, readTasks. simpl.
    destruct (findIndex _ (tasks w)) as [i|]; [|reflexivity].
    destruct (nth_error (tasks w) i) as [task|] eqn:Hn; [|reflexivity].
    step. simpl. eapply map_assign; [exact Hn | reflexivity].
  - unfold toggleTask, exec, bind, readTasks. simpl.
    destruct (find _ (tasks w)) as [task|]; [|reflexivity].
    step. simpl. apply map_toggle.
Qed.

(** C10.  For an identifier that no task of the list carries, update and
    toggle do nothing at all, and a confirmed delete leaves the task list as
    it was. *)
Theorem missing_id_is_noop
    (w : World) (id' title' : string) (description' : option string)
    (dueDate' : option Z) (priority' : option Priority) (projectId' : option string) :
  ~ In id' (map id (tasks w)) ->
  exec (updateTaskWithLogic id' title' description' dueDate' priority' projectId') w = w /\
  exec (toggleTask id') w = w /\
  tasks (exec (deleteTask id' PressDelete) w) = tasks w.
Proof.
  intros H. pose proof (id_absent id' (tasks w) H) as Hno.
  repeat split.
  - unfold updateTaskWithLogic, exec, bind, readTasks. simpl.
    rewrite findIndex_None by exact Hno. reflexivity.
  - unfold toggleTask, exec, bind, readTasks. simpl.
    rewrite find_None by exact Hno. reflexivity.
  - unfold deleteTask, exec, bind, readTasks. simpl.
    rewrite find_None by exact Hno. simpl.
    apply filter_all. apply Forall_forall. intros t Ht.
    rewrite (Hno t Ht). reflexivity.
Qed.

Lemma missing_id_is_noop_witness :
  exec (updateTaskWithLogic "42" "Renamed" None None None None)
       (sampleWorld [submitReport; callHome])
  = sampleWorld [submitReport; callHome] /\
  exec (toggleTask "42") (sampleWorld [submitReport; callHome])
  = sampleWorld [submitReport; callHome] /\
  tasks (exec (deleteTask "42" PressDelete) (sampleWorld [submitReport; callHome]))
  = [submitReport; callHome].
Proof.
  apply (missing_id_is_noop (sampleWorld [submitReport; callHome])
           "42" "Renamed" None None None None).
  simpl. intros [H|[H|[]]]; discriminate H.
Defined.

Lemma find_middle {A : Type} (p : A -> bool) (l1 l2 : list A) (x : A) :
  (forall y, In y l1 -> p y = false) -> p x = true ->
  find p (l1 ++ x :: l2) = Some x.
Proof.
  intros H Hx. induction l1 as [|y l1 IH]; simpl.
  - rewrite Hx. reflexivity.
  - rewrite (H y) by (left; reflexivity).
    apply IH. intros z Hz. apply H. right. exact Hz.
Qed.

Lemma filter_middle {A : Type} (p : A -> bool) (l1 l2 : list A) (x : A) :
  (forall y, In y (l1 ++ l2) -> p y = true) -> p x = false ->
  filter p (l1 ++ x :: l2) = l1 ++ l2.
Proof.
  intros H Hx. rewrite filter_app. simpl. rewrite Hx.
  rewrite !filter_all; [reflexivity | |];
    apply Forall_forall; intros y Hy; apply H; apply in_or_app; auto.
Qed.

Lemma unique_id (l1 l2 : list Task) (t : Task) :
  NoDup (map id (l1 ++ t :: l2)) ->
  forall y, In y (l1 ++ l2) -> String.eqb (id y) (id t) = false.
Proof.
  rewrite map_app. simpl. intros H y Hy.
  apply NoDup_remove_2 in H. apply String.eqb_neq. intros E. apply H.
  rewrite <- E, <- map_app. apply in_map. exact Hy.
Qed.

(** C3 at its failing input.  [bookFlight] is completed, holds the reminder
    identifier ["reminder-1"] and is due in an hour.  Toggling it back calls
    [scheduleReminder], which reaches the scheduler of the platform: a new
    reminder is scheduled, the scheduler's answer is consumed and dropped, and
    the task keeps the old identifier. *)
Theorem toggle_back_schedules_a_reminder :
  completed bookFlight = true /\
  notificationId bookFlight = Some "reminder-1" /\
  inFuture (sampleWorld [bookFlight]) (dueDate bookFlight) = true /\
  trace (exec (toggleTask (id bookFlight)) (sampleWorld [bookFlight]))
  = [ScheduleNotification "Book flight" "Task is due now!" (sampleNow + oneHour);
     SetItem [withCompleted bookFlight false]] /\
  outcomes (exec (toggleTask (id bookFlight)) (sampleWorld [bookFlight])) = [] /\
  tasks (exec (toggleTask (id bookFlight)) (sampleWorld [bookFlight]))
  = [withCompleted bookFlight false] /\
  notificationId (withCompleted bookFlight false) = Some "reminder-1".
Proof. repeat split; vm_compute; reflexivity. Qed.

Lemma truthyId_falsy (x : option string) :
  truthyId x = None -> Js.truthyString x = false /\ (x <> Some "" -> x = None).
Proof.
  destruct x as [s|]; simpl; [|intros _; split; auto].
  destruct (String.eqb_spec s ""); [|discriminate].
  subst. intros _. split; [reflexivity | congruence].
Qed.

(** C4.  Updating an existing task with a due date different from the one it
    has (a missing one included).  The call that cancels the old reminder, if
    the task holds an identifier, comes first.  When the new due date is
    strictly in the future the next call schedules a reminder for it under the
    new title, and the identifier the scheduler answers with is stored on the
    task (none when the scheduler fails).  Otherwise nothing is scheduled and
    the task ends up without an identifier.  In both cases the updated list
    is then handed to the store. *)
Theorem update_with_new_due_date
    (w : World) (id' title' : string) (description' : option string)
    (dueDate' : option Z) (priority' : option Priority) (projectId' : option string)
    (taskIndex : nat) (task : Task) :
  findIndex (fun t => String.eqb (id t) id') (tasks w) = Some taskIndex ->
  nth_error (tasks w) taskIndex = Some task ->
  dueDate' <> dueDate task ->
  exists updated w',
    w' = exec (updateTaskWithLogic id' title' description' dueDate'
                                   priority' projectId') w /\
    nth_error (tasks w') taskIndex = Some updated /\
    dueDate updated = dueDate' /\
    (inFuture w dueDate' = true ->
       trace w' = trace w ++ cancellation task ++ scheduling title' dueDate'
                    ++ [SetItem (tasks w')] /\
       (forall n rest, outcomes w = Resolves n :: rest -> n <> "" ->
          notificationId updated = Some n) /\
       (forall rest, outcomes w = Rejects :: rest ->
          Js.truthyString (notificationId updated) = false)) /\
    (inFuture w dueDate' = false ->
       trace w' = trace w ++ cancellation task ++ [SetItem (tasks w')] /\
       Js.truthyString (notificationId updated) = false /\
       (notificationId task <> Some "" -> notificationId updated = None)).
Proof.
  intros Hfind Hnth Hne.
  unfold updateTaskWithLogic, exec, bind, readTasks. simpl.
  rewrite Hfind, Hnth, (dateNeq_true _ _ Hne).
  unfold cancellation, inFuture, scheduling.
  destruct (truthyId (notificationId task)) as [old|] eqn:Hold.
  all: hook_unfold; simpl.
  all: destruct dueDate' as [d|]; simpl.
  all: try destruct (Z.eqb_spec d 0) as [->|Hd]; simpl.
  all: try destruct (d >? Z.of_N (clock w)) eqn:Hgt; simpl.
  all: try destruct (d <=? Z.of_N (clock w)) eqn:Hle; simpl.
  all: try destruct (outcomes w) as [|[n|] rest] eqn:Ho; simpl.
  all: try destruct (String.eqb_spec n "") as [->|Hn]; simpl.
  all: eexists; eexists; split; [reflexivity|]; simpl.
  all: (split; [eapply nth_error_assign; exact Hnth|]).
  all: (split; [reflexivity|]).
  all: split; intros Hf; try lia; try discriminate.
  all: rewrite <- ?app_assoc; simpl.
  all: repeat split; try reflexivity.
  all: try (intros; discriminate).
  all: try (apply truthyId_falsy; assumption).
  all: try (intros ? ? [= <- <-] ?; simpl; try congruence).
  intros. apply truthyId_falsy. assumption.
Qed.

Lemma update_with_new_due_date_witness :
  exists updated w',
    w' = exec (updateTaskWithLogic (id submitReport) "Submit report" None
                 (Some (sampleNow + oneDay)) None None)
              (sampleWorld [callHome; submitReport]) /\
    nth_error (tasks w') 1 = Some updated /\
    dueDate updated = Some (sampleNow + oneDay) /\
    (inFuture (sampleWorld [callHome; submitReport]) (Some (sampleNow + oneDay)) = true ->
       trace w' = trace (sampleWorld [callHome; submitReport])
                    ++ cancellation submitReport
                    ++ scheduling "Submit report" (Some (sampleNow + oneDay))
                    ++ [SetItem (tasks w')] /\
       (forall n rest,
          outcomes (sampleWorld [callHome; submitReport]) = Resolves n :: rest ->
          n <> "" -> notificationId updated = Some n) /\
       (forall rest,
          outcomes (sampleWorld [callHome; submitReport]) = Rejects :: rest ->
          Js.truthyString (notificationId updated) = false)) /\
    (inFuture (sampleWorld [callHome; submitReport]) (Some (sampleNow + oneDay)) = false ->
       trace w' = trace (sampleWorld [callHome; submitReport])
                    ++ cancellation submitReport ++ [SetItem (tasks w')] /\
       Js.truthyString (notificationId updated) = false /\
       (notificationId submitReport <> Some "" -> notificationId updated = None)).
Proof.
  apply (update_with_new_due_date (sampleWorld [callHome; submitReport])
           (id submitReport) "Submit report" None (Some (sampleNow + oneDay))
           None None 1%nat submitReport).
  - reflexivity.
  - reflexivity.
  - discriminate.
Defined.

(** The same update, run: the old reminder is cancelled, a new one is
    scheduled for the new date, and the scheduler's identifier is stored. *)
Example update_moves_the_reminder :
  trace (exec (updateTaskWithLogic (id submitReport) "Submit report" None
                 (Some (sampleNow + oneDay)) None None)
              (sampleWorld [callHome; submitReport]))
  = [CancelNotification "reminder-1";
     ScheduleNotification "Submit report" "Task is due now!" (sampleNow + oneDay);
     SetItem [callHome;
              mkTask "1699990000006" "Submit report" None false 1699990000006
                     (Some (sampleNow + oneDay)) P2 "work" (Some "reminder-2")]].
Proof. vm_compute. reflexivity. Qed.

(** C5.  Adding a task puts a new task at the head of the list.  When the
    supplied due date is strictly in the future and [scheduleReminder]
    answers with an identifier, the new task stores it.  When the due date is
    missing or not strictly in the future, nothing is scheduled and the new
    task has no identifier.  [scheduleReminder] itself answers nothing, and
    calls nothing, for a timestamp that is not strictly in the future. *)
Theorem add_task_reminder
    (w : World) (title' : string) (description' : option string)
    (dueDate' : option Z) (priority' : option Priority) (projectId' : option string) :
  exists newTask w',
    w' = exec (addTask title' description' dueDate' priority' projectId') w /\
    tasks w' = newTask :: tasks w /\
    (forall d n,
       dueDate' = Some d -> Z.of_N (clock w) < d ->
       eval (scheduleReminder title' "Task is due now!" d) w = Some n -> n <> "" ->
       notificationId newTask = Some n) /\
    (inFuture w dueDate' = false ->
       notificationId newTask = None /\
       trace w' = trace w ++ [SetItem (tasks w')]) /\
    (forall t body date,
       date <= Z.of_N (clock w) ->
       eval (scheduleReminder t body date) w = None /\
       exec (scheduleReminder t body date) w = w).
Proof.
  unfold inFuture. hook_unfold. simpl.
  destruct dueDate' as [d|]; simpl.
  all: try destruct (Z.eqb_spec d 0) as [->|Hd]; simpl.
  all: try destruct (d >? Z.of_N (clock w)) eqn:Hgt; simpl.
  all: try destruct (d <=? Z.of_N (clock w)) eqn:Hle; simpl.
  all: try destruct (outcomes w) as [|[n|] rest] eqn:Ho; simpl.
  all: eexists; eexists; split; [reflexivity|]; simpl.
  all: (split; [reflexivity|]).
  all: split; [intros d' n' [= <-] Hlt; simpl;
               try rewrite Hle; try rewrite Ho; simpl; try lia;
               try (intros [= <-] Hn; simpl;
                    destruct (String.eqb_spec n ""); [contradiction | reflexivity]);
               try discriminate|].
  all: split; [intros Hf; try lia; try discriminate; split; reflexivity|].
  all: intros t body date Hdate;
    destruct (Z.leb_spec date (Z.of_N (clock w))); [split; reflexivity | lia].
Qed.

Lemma add_task_reminder_witness :
  exists newTask,
    tasks (exec (addTask "Water plants" None (Some (sampleNow + oneHour)) None None)
                (sampleWorld [callHome]))
    = newTask :: [callHome] /\
    notificationId newTask = Some "reminder-2".
Proof.
  destruct (add_task_reminder (sampleWorld [callHome]) "Water plants" None
              (Some (sampleNow + oneHour)) None None)
    as (newTask & w' & -> & Ht & Hstore & _).
  exists newTask. split; [exact Ht|].
  apply (Hstore (sampleNow + oneHour) "reminder-2").
  - reflexivity.
  - reflexivity.
  - reflexivity.
  - discriminate.
Defined.

(** A task due an hour ago gets no reminder and nothing is scheduled. *)
Example add_task_in_the_past :
  exec (addTask "Water plants" None (Some (sampleNow - oneHour)) None None)
       (sampleWorld [])
  = mkWorld
      [mkTask "1700000000000" "Water plants" None false sampleNow
              (Some (sampleNow - oneHour)) P4 "inbox" None]
      1700000000000%N [Resolves "reminder-2"]
      [SetItem [mkTask "1700000000000" "Water plants" None false sampleNow
                       (Some (sampleNow - oneHour)) P4 "inbox" None]].
Proof. vm_compute. reflexivity. Qed.

(** ** How far the two defects reach *)

(** Between a task without a due date and a task whose due date is not
    overdue the comparator answers 1 both ways round, whatever the two
    priorities are. *)
Lemma compareTasks_dated_undated (now d : Z) (x y : Task) :
  completed x = completed y ->
  dueDate x = None -> dueDate y = Some d -> d <> 0 -> now <= d ->
  compareTasks now x y = 1 /\ compareTasks now y x = 1.
Proof.
  intros C Dx Dy Nd Hd. unfold_compare. rewrite C, Dx, Dy. simpl.
  destruct (Z.eqb_spec d 0); [contradiction|]. simpl.
  destruct (Z.ltb_spec d now); [lia|].
  destruct (completed y); split; reflexivity.
Qed.

(** Toggling back a completed task whose due date is strictly in the future
    always calls the scheduler. *)
Lemma toggle_back_calls_scheduler (w : World) (task : Task) (d : Z) :
  find (fun t => String.eqb (id t) (id task)) (tasks w) = Some task ->
  completed task = true -> dueDate task = Some d -> Z.of_N (clock w) < d ->
  exists saved,
    trace (exec (toggleTask (id task)) w)
    = trace w ++ [ScheduleNotification (title task) "Task is due now!" d; SetItem saved].
Proof.
  intros Hf Hc Hd Hlt. hook_unfold. simpl. rewrite Hf, Hc, Hd. simpl.
  destruct (Z.eqb_spec d 0); [lia|]. simpl.
  destruct (Z.gtb_spec d (Z.of_N (clock w))); [|lia]. simpl.
  destruct (Z.leb_spec d (Z.of_N (clock w))); [lia|]. simpl.
  destruct (outcomes w) as [|[answer|] rest]; simpl;
    rewrite <- app_assoc; eexists; reflexivity.
Qed.

(** * Further properties *)

(** ** The insertion sort on a domain where the comparator is consistent *)

Section SortOn.

Context {A : Type}.
Variable comparefn : A -> A -> Z.
Variable D : A -> Prop.

Local Abbreviation lt := (less comparefn).
Local Abbreviation insert := (sift comparefn).
Local Abbreviation run := (fold_left (fun sorted x => sift comparefn x sorted)).
Local Abbreviation descending := (StronglySorted (fun a b => lt a b = false)).

Hypothesis asym : forall x y, D x -> D y -> lt x y = true -> lt y x = false.
Hypothesis trans :
  forall x y z, D x -> D y -> D z ->
    lt y x = false -> lt z y = false -> lt z x = false.

Lemma descending_sift_on (x : A) (rl : list A) :
  D x -> Forall D rl -> descending rl -> descending (insert x rl).
Proof.
  intros Dx. induction rl as [|y rest IH]; simpl; intros HD H.
  - repeat constructor.
  - apply StronglySorted_inv in H. destruct H as [Hrest Hy].
    apply Forall_cons_iff in HD. destruct HD as [Dy Drest].
    destruct (lt x y) eqn:Hxy.
    + constructor; [auto|].
      eapply Permutation_Forall; [symmetry; apply sift_perm|].
      constructor; [apply asym; assumption | exact Hy].
    + constructor; [constructor; assumption|].
      constructor; [exact Hxy|].
      rewrite Forall_forall in *. intros b Hb.
      apply (trans b y x); auto.
Qed.

Lemma descending_run_on (l acc : list A) :
  Forall D l -> Forall D acc -> descending acc ->
  descending (run l acc) /\ Forall D (run l acc).
Proof.
  revert acc; induction l as [|x l IH]; intros acc Hl Hacc H; simpl; [auto|].
  apply Forall_cons_iff in Hl. destruct Hl as [Dx Dl].
  apply IH; [exact Dl | | apply descending_sift_on; assumption].
  eapply Permutation_Forall; [symmetry; apply sift_perm|].
  constructor; assumption.
Qed.

Lemma sort_sorted_on (l : list A) (x y : A) :
  Forall D l -> before x y (sort comparefn l) -> lt y x = false.
Proof.
  intros HD (l1 & l2 & l3 & E).
  assert (S : descending (rev (sort comparefn l))).
  { rewrite sort_rev_run. apply descending_run_on; [exact HD | constructor | constructor]. }
  rewrite E in S.
  replace (l1 ++ x :: l2 ++ y :: l3) with ((l1 ++ x :: l2) ++ y :: l3) in S
    by (rewrite <- app_assoc; reflexivity).
  rewrite rev_app_distr in S. simpl in S. rewrite <- app_assoc in S. simpl in S.
  assert (T : forall u v, descending (u ++ v) -> descending v).
  { induction u as [|a u IH]; simpl; [trivial|].
    intros v H. apply StronglySorted_inv in H. apply IH, H. }
  apply T, StronglySorted_inv in S. destruct S as [_ S].
  rewrite Forall_forall in S. apply S.
  rewrite <- in_rev. apply in_or_app. right. left. reflexivity.
Qed.

End SortOn.

(** ** The ordering policy, continued *)

Lemma shown_selected (sel : option string) (l : list Task) :
  filter (shown sel) l = if Js.truthyString sel then filter (selected sel) l else l.
Proof.
  unfold shown, selected. destruct sel as [p|]; simpl.
  - destruct (String.eqb p ""); simpl; [|reflexivity].
    apply filter_all, Forall_forall. reflexivity.
  - apply filter_all, Forall_forall. reflexivity.
Qed.

Lemma ordering_perm_shown (now : Z) (sel : option string) (l : list Task) :
  Permutation (filteredAndSortedTasks now sel l) (filter (shown sel) l).
Proof. rewrite shown_selected. apply filteredAndSortedTasks_perm. Qed.

(** X1.  The ordering operation returns the tasks of the selected project,
    all tasks when the filter is [null] or the empty string, each exactly as
    often as the input holds it. *)
Theorem ordering_is_a_rearrangement
    (now : Z) (selectedProjectId : option string) (l : list Task) :
  Permutation (filteredAndSortedTasks now selectedProjectId l)
              (filter (shown selectedProjectId) l).
Proof. apply ordering_perm_shown. Qed.

Lemma dated_inv (t : Task) :
  dated t -> exists d, dueDate t = Some d /\ (d =? 0) = false.
Proof.
  unfold dated, truthyDate. destruct (dueDate t) as [d|]; [|congruence].
  destruct (d =? 0) eqn:E; [congruence|]. intros _. exists d. auto.
Qed.

Ltac dated_cases :=
  repeat match goal with
         | H : dated ?t |- _ =>
           let d := fresh "d" in let E := fresh "E" in let N := fresh "N" in
           destruct (dated_inv t H) as (d & E & N); clear H
         | H : undated ?t |- _ => unfold undated in H
         end;
  unfold_compare;
  repeat match goal with
         | E : dueDate ?t = _ |- _ => rewrite E in *; clear E
         end;
  simpl in *;
  repeat match goal with
         | N : (?d =? 0) = false |- _ => rewrite N in *; clear N
         end;
  simpl in *;
  repeat match goal with
         | |- context [completed ?t] => destruct (completed t)
         | H : context [completed ?t] |- _ => destruct (completed t)
         end;
  simpl in *; repeat (progress (split_ifs; simpl in *));
  try discriminate; try lia.

Lemma compareTasks_asym_sign (now : Z) (x y : Task) :
  (dated x /\ dated y) \/ (undated x /\ undated y) ->
  0 <= compareTasks now y x -> compareTasks now x y <= 0.
Proof. intros [[Dx Dy]|[Dx Dy]]; dated_cases. Qed.

Lemma compareTasks_trans_dated (now : Z) (x y z : Task) :
  dated x -> dated y -> dated z ->
  less (compareTasks now) y x = false -> less (compareTasks now) z y = false ->
  less (compareTasks now) z x = false.
Proof. intros Dx Dy Dz. dated_cases. Qed.

Lemma compareTasks_trans_undated (now : Z) (x y z : Task) :
  undated x -> undated y -> undated z ->
  less (compareTasks now) y x = false -> less (compareTasks now) z y = false ->
  less (compareTasks now) z x = false.
Proof. intros Dx Dy Dz. dated_cases. Qed.

Lemma before_in {A : Type} (x y : A) (l : list A) :
  before x y l -> In x l /\ In y l.
Proof.
  intros (l1 & l2 & l3 & ->). split; apply in_or_app; right.
  - left. reflexivity.
  - right. apply in_or_app. right. left. reflexivity.
Qed.

Lemma ordering_in (now : Z) (sel : option string) (l : list Task) (t : Task) :
  In t (filteredAndSortedTasks now sel l) -> In t l.
Proof.
  intros H.
  apply (Permutation_in _ (ordering_perm_shown now sel l)) in H.
  apply filter_In in H. apply H.
Qed.

(** X2.  On a list whose tasks all have a due date (other than timestamp 0),
    or all have none, the comparator is consistent and the output obeys its
    five rules: a task to the left of another never compares greater, and
    among tasks of equal completion and equal overdue state the priority
    values ascend from left to right. *)
Theorem ordering_sorted_when_uniformly_dated
    (now : Z) (selectedProjectId : option string) (l : list Task) (x y : Task) :
  Forall dated l \/ Forall undated l ->
  before x y (filteredAndSortedTasks now selectedProjectId l) ->
  compareTasks now x y <= 0 /\
  (completed x = completed y -> dueBefore now x = dueBefore now y ->
   priorityValue (priority x) <= priorityValue (priority y)).
Proof.
  intros HD Hb.
  destruct (before_in _ _ _ Hb) as [Ix Iy].
  apply ordering_in in Ix, Iy.
  assert (U : (dated x /\ dated y) \/ (undated x /\ undated y)).
  { destruct HD as [H|H]; rewrite Forall_forall in H; [left | right]; auto. }
  assert (L : less (compareTasks now) y x = false).
  { unfold filteredAndSortedTasks in Hb.
    destruct HD as [H|H].
    - eapply (sort_sorted_on (compareTasks now) dated); [| | | exact Hb].
      + intros a b _ _. apply compareTasks_asym.
      + apply compareTasks_trans_dated.
      + destruct (Js.truthyString selectedProjectId); [|exact H].
        apply Forall_forall. intros t Ht. apply filter_In in Ht.
        rewrite Forall_forall in H. apply H, Ht.
    - eapply (sort_sorted_on (compareTasks now) undated); [| | | exact Hb].
      + intros a b _ _. apply compareTasks_asym.
      + apply compareTasks_trans_undated.
      + destruct (Js.truthyString selectedProjectId); [|exact H].
        apply Forall_forall. intros t Ht. apply filter_In in Ht.
        rewrite Forall_forall in H. apply H, Ht. }
  assert (C : compareTasks now x y <= 0).
  { apply compareTasks_asym_sign; [exact U|]. unfold less in L. lia. }
  split; [exact C|].
  clear - U C. revert C. destruct U as [[Dx Dy]|[Dx Dy]]; dated_cases.
Qed.

Lemma ordering_sorted_when_uniformly_dated_witness :
  compareTasks sampleNow taskA payRent <= 0 /\
  (completed taskA = completed payRent ->
   dueBefore sampleNow taskA = dueBefore sampleNow payRent ->
   priorityValue (priority taskA) <= priorityValue (priority payRent)).
Proof.
  apply (ordering_sorted_when_uniformly_dated sampleNow None
           [payRent; taskB; taskA] taskA payRent).
  - left. repeat constructor; discriminate.
  - exists [taskB], [], []. vm_compute. reflexivity.
Defined.

(** X3.  Between a task without a due date and a task of the same completion
    state whose due date is not overdue, the comparator answers 1 whichever
    way round it is asked, whatever the priorities and creation times: it is
    not a consistent comparison function on such a pair. *)
Theorem dated_and_undated_compare_inconsistently
    (now d : Z) (x y : Task) :
  completed x = completed y ->
  dueDate x = None -> dueDate y = Some d -> d <> 0 -> now <= d ->
  compareTasks now x y = 1 /\ compareTasks now y x = 1.
Proof. apply compareTasks_dated_undated. Qed.

Lemma dated_and_undated_compare_inconsistently_witness :
  compareTasks sampleNow callHome payRent = 1 /\
  compareTasks sampleNow payRent callHome = 1.
Proof.
  apply (dated_and_undated_compare_inconsistently sampleNow (sampleNow + oneDay)
           callHome payRent); try reflexivity; unfold sampleNow, oneDay; lia.
Defined.

(** ** [toggleTask], continued *)

Lemma find_map_same {A : Type} (p : A -> bool) (f : A -> A) (l : list A) :
  (forall x, p (f x) = p x) -> find p (map f l) = option_map f (find p l).
Proof.
  intros H. induction l as [|x l IH]; simpl; [reflexivity|].
  rewrite H. destruct (p x); [reflexivity | exact IH].
Qed.

Lemma toggle_tasks (w : World) (id' : string) (task : Task) :
  find (fun t => String.eqb (id t) id') (tasks w) = Some task ->
  tasks (exec (toggleTask id') w)
  = map (fun t => if String.eqb (id t) id'
                  then withCompleted t (negb (completed task)) else t)
        (tasks w).
Proof.
  intros Hf. unfold toggleTask, exec, bind, readTasks. simpl. rewrite Hf.
  step. reflexivity.
Qed.

(** X4.  What toggling a task asks of the collaborators.  Marking it
    complete cancels its reminder when it holds an identifier and schedules
    nothing.  Marking it incomplete with no due date strictly in the future
    calls neither.  Marking it incomplete with a due date strictly in the
    future schedules a reminder under the task's title and uses up the
    scheduler's answer.  Each time the new list goes to the store last. *)
Theorem toggle_side_effects (w : World) (id' : string) (task : Task) :
  find (fun t => String.eqb (id t) id') (tasks w) = Some task ->
  (completed task = false ->
     trace (exec (toggleTask id') w)
     = trace w ++ cancellation task ++ [SetItem (tasks (exec (toggleTask id') w))] /\
     outcomes (exec (toggleTask id') w) = outcomes w) /\
  (completed task = true -> inFuture w (dueDate task) = false ->
     trace (exec (toggleTask id') w)
     = trace w ++ [SetItem (tasks (exec (toggleTask id') w))] /\
     outcomes (exec (toggleTask id') w) = outcomes w) /\
  (completed task = true -> inFuture w (dueDate task) = true ->
     trace (exec (toggleTask id') w)
     = trace w ++ scheduling (title task) (dueDate task)
         ++ [SetItem (tasks (exec (toggleTask id') w))] /\
     outcomes (exec (toggleTask id') w) = tl (outcomes w)).
Proof.
  intros Hf. unfold inFuture, scheduling, cancellation.
  hook_unfold. simpl. rewrite Hf.
  destruct (completed task); simpl.
  all: destruct (truthyId (notificationId task)); simpl.
  all: destruct (dueDate task) as [d|]; simpl.
  all: try destruct (Z.eqb_spec d 0) as [->|Hd]; simpl.
  all: try destruct (d >? Z.of_N (clock w)) eqn:Hgt; simpl.
  all: try destruct (d <=? Z.of_N (clock w)) eqn:Hle; simpl.
  all: try destruct (outcomes w) as [|[answer|] rest] eqn:Ho; simpl.
  all: rewrite <- ?app_assoc; simpl.
  all: repeat split; intros; try discriminate; try lia; try reflexivity.
Qed.

Lemma toggle_side_effects_witness :
  (completed bookFlight = true ->
   inFuture (sampleWorld [bookFlight]) (dueDate bookFlight) = true ->
     trace (exec (toggleTask (id bookFlight)) (sampleWorld [bookFlight]))
     = trace (sampleWorld [bookFlight])
         ++ scheduling (title bookFlight) (dueDate bookFlight)
         ++ [SetItem (tasks (exec (toggleTask (id bookFlight))
                                  (sampleWorld [bookFlight])))] /\
     outcomes (exec (toggleTask (id bookFlight)) (sampleWorld [bookFlight]))
     = tl (outcomes (sampleWorld [bookFlight]))) /\
  (completed submitReport = false ->
     trace (exec (toggleTask (id submitReport)) (sampleWorld [callHome; submitReport]))
     = trace (sampleWorld [callHome; submitReport]) ++ cancellation submitReport
         ++ [SetItem (tasks (exec (toggleTask (id submitReport))
                                  (sampleWorld [callHome; submitReport])))] /\
     outcomes (exec (toggleTask (id submitReport)) (sampleWorld [callHome; submitReport]))
     = outcomes (sampleWorld [callHome; submitReport])).
Proof.
  split.
  - apply (toggle_side_effects (sampleWorld [bookFlight]) (id bookFlight) bookFlight).
    reflexivity.
  - apply (toggle_side_effects (sampleWorld [callHome; submitReport])
             (id submitReport) submitReport).
    reflexivity.
Defined.

(** X5.  Toggling changes nothing but completion flags: every task keeps all
    its other fields, the reminder identifier included, tasks with another
    identifier are left as they are, and the tasks that carry the identifier
    all get the negation of the first one's flag. *)
Theorem toggle_changes_only_completion (w : World) (id' : string) :
  map unflagged (tasks (exec (toggleTask id') w)) = map unflagged (tasks w) /\
  (forall j t, nth_error (tasks w) j = Some t -> id t <> id' ->
     nth_error (tasks (exec (toggleTask id') w)) j = Some t) /\
  (forall task j t,
     find (fun t => String.eqb (id t) id') (tasks w) = Some task ->
     nth_error (tasks w) j = Some t -> id t = id' ->
     nth_error (tasks (exec (toggleTask id') w)) j
     = Some (withCompleted t (negb (completed task)))).
Proof.
  destruct (find (fun t => String.eqb (id t) id') (tasks w)) as [task|] eqn:Hf.
  - rewrite (toggle_tasks w id' task Hf). repeat split.
    + rewrite map_map. apply map_ext. intros t.
      destruct (String.eqb (id t) id'); reflexivity.
    + intros j t Hj Hne. rewrite nth_error_map, Hj. simpl.
      destruct (String.eqb_spec (id t) id'); [contradiction | reflexivity].
    + intros task' j t [= <-] Hj He. rewrite nth_error_map, Hj. simpl.
      rewrite He, String.eqb_refl. reflexivity.
  - assert (E : exec (toggleTask id') w = w).
    { unfold toggleTask, exec, bind, readTasks. simpl. rewrite Hf. reflexivity. }
    rewrite E. repeat split; auto. intros; discriminate.
Qed.

Lemma unique_by_id (l : list Task) (x y : Task) :
  NoDup (map id l) -> In x l -> In y l -> id x = id y -> x = y.
Proof.
  induction l as [|a l IH]; simpl; [contradiction|].
  intros U [->|Hx] [->|Hy] E.
  - reflexivity.
  - inversion U as [|? ? N _]. subst. exfalso. apply N. rewrite E. apply in_map, Hy.
  - inversion U as [|? ? N _]. subst. exfalso. apply N. rewrite <- E. apply in_map, Hx.
  - inversion U. subst. auto.
Qed.

Lemma withCompleted_same (t : Task) (c : bool) :
  withCompleted (withCompleted t c) (completed t) = t.
Proof. destruct t. reflexivity. Qed.

(** X6.  On a list whose identifiers are unique, toggling the same task
    twice gives back the task list it started from. *)
Theorem toggle_twice_restores_list (w : World) (id' : string) :
  NoDup (map id (tasks w)) ->
  tasks (exec (toggleTask id') (exec (toggleTask id') w)) = tasks w.
Proof.
  intros U.
  destruct (find (fun t => String.eqb (id t) id') (tasks w)) as [task|] eqn:Hf.
  - pose proof (toggle_tasks w id' task Hf) as E1.
    assert (Hf2 : find (fun t => String.eqb (id t) id') (tasks (exec (toggleTask id') w))
                  = Some (withCompleted task (negb (completed task)))).
    { rewrite E1, find_map_same.
      - rewrite Hf. simpl.
        apply find_some in Hf. destruct Hf as [_ Hid]. rewrite Hid. reflexivity.
      - intros x. destruct (String.eqb (id x) id') eqn:Ex; simpl; rewrite ?Ex; reflexivity. }
    rewrite (toggle_tasks _ id' _ Hf2), E1, map_map. simpl.
    rewrite negb_involutive.
    rewrite <- (map_id (tasks w)) at 2. apply map_ext_in. intros t Ht.
    destruct (String.eqb (id t) id') eqn:Et; simpl; rewrite Et; [|reflexivity].
    apply find_some in Hf. destruct Hf as [Hin Hid].
    apply String.eqb_eq in Et, Hid.
    assert (t = task) by (apply (unique_by_id (tasks w)); congruence).
    subst t. apply withCompleted_same.
  - assert (E : exec (toggleTask id') w = w).
    { unfold toggleTask, exec, bind, readTasks. simpl. rewrite Hf. reflexivity. }
    rewrite !E. reflexivity.
Qed.

Lemma toggle_twice_restores_list_witness :
  tasks (exec (toggleTask (id submitReport))
          (exec (toggleTask (id submitReport)) (sampleWorld [callHome; submitReport])))
  = [callHome; submitReport].
Proof.
  apply (toggle_twice_restores_list (sampleWorld [callHome; submitReport])
           (id submitReport)).
  simpl. repeat constructor; simpl; intuition discriminate.
Defined.

(** ** Every operation and the store *)

(** The term holds no [match] of its own. *)
Ltac is_innermost t :=
  lazymatch t with
  | context [match _ with _ => _ end] => fail
  | _ => idtac
  end.

Ltac hook_cases :=
  hook_unfold; simpl;
  repeat match goal with
         | |- context [match ?scrutinee with _ => _ end] =>
           is_innermost scrutinee; destruct scrutinee eqn:?; simpl
         end.

Ltac saved_or_same :=
  first
    [ left; reflexivity
    | right; unfold savedLast; simpl; rewrite <- ?app_assoc; simpl;
      first [ exists []; reflexivity
            | eexists [_]; reflexivity
            | eexists [_; _]; reflexivity ] ].

(** X7.  The store always holds the list that is in memory: each operation
    either changes nothing at all (no call, no state change) or ends with a
    call that hands the store exactly the list it left in memory.  Adding a
    task always saves. *)
Theorem every_change_is_saved
    (w : World) (id' title' : string) (description' : option string)
    (dueDate' : option Z) (priority' : option Priority) (projectId' : option string)
    (answer : Answer) :
  savedLast w (exec (addTask title' description' dueDate' priority' projectId') w) /\
  (exec (updateTaskWithLogic id' title' description' dueDate' priority' projectId') w = w \/
   savedLast w (exec (updateTaskWithLogic id' title' description' dueDate'
                                          priority' projectId') w)) /\
  (exec (toggleTask id') w = w \/ savedLast w (exec (toggleTask id') w)) /\
  (exec (deleteTask id' answer) w = w \/ savedLast w (exec (deleteTask id' answer) w)).
Proof.
  repeat split.
  - assert (H : exec (addTask title' description' dueDate' priority' projectId') w = w \/
                savedLast w (exec (addTask title' description' dueDate'
                                           priority' projectId') w)).
    { hook_cases; saved_or_same. }
    destruct H as [H|H]; [|exact H].
    exfalso. apply (f_equal (fun v => List.length (tasks v))) in H. revert H.
    hook_cases; intros H; lia.
  - hook_cases; saved_or_same.
  - hook_cases; saved_or_same.
  - hook_cases; saved_or_same.
Qed.

(** ** [updateTaskWithLogic], continued *)

Lemma nth_error_assign_other {A : Type} (l : list A) (i j : nat) (x : A) :
  i <> j -> nth_error (assign l i x) j = nth_error l j.
Proof.
  revert i j; induction l as [|y l IH]; intros [|i] [|j] H; simpl; try reflexivity.
  - contradiction.
  - apply IH. auto.
Qed.

Lemma length_assign {A : Type} (l : list A) (i : nat) (x : A) :
  List.length (assign l i x) = List.length l.
Proof.
  revert i; induction l as [|y l IH]; intros [|i]; simpl; auto.
Qed.

Lemma update_tasks
    (w : World) (id' title' : string) (description' : option string)
    (dueDate' : option Z) (priority' : option Priority) (projectId' : option string)
    (taskIndex : nat) (task : Task) :
  findIndex (fun t => String.eqb (id t) id') (tasks w) = Some taskIndex ->
  nth_error (tasks w) taskIndex = Some task ->
  exists stored,
    tasks (exec (updateTaskWithLogic id' title' description' dueDate'
                                     priority' projectId') w)
    = assign (tasks w) taskIndex
        (mkTask (id task) title' description' (completed task) (createdAt task)
                dueDate' (orDefault priority' (priority task))
                (orDefault projectId' (projectId task)) stored).
Proof.
  intros Hfind Hnth.
  unfold updateTaskWithLogic, exec, bind, readTasks. simpl.
  rewrite Hfind, Hnth. step. simpl. eexists. reflexivity.
Qed.

(** X8.  An update touches one task only, the first that carries the
    identifier: the list keeps its length, every other position keeps its
    task, and the updated task keeps its identifier, creation timestamp and
    completion flag, takes the submitted title, description and due date, and
    takes the submitted priority and project when they are given and keeps
    its own otherwise. *)
Theorem update_touches_one_task
    (w : World) (id' title' : string) (description' : option string)
    (dueDate' : option Z) (priority' : option Priority) (projectId' : option string)
    (taskIndex : nat) (task : Task) :
  findIndex (fun t => String.eqb (id t) id') (tasks w) = Some taskIndex ->
  nth_error (tasks w) taskIndex = Some task ->
  exists updated w',
    w' = exec (updateTaskWithLogic id' title' description' dueDate'
                                   priority' projectId') w /\
    List.length (tasks w') = List.length (tasks w) /\
    (forall j, j <> taskIndex -> nth_error (tasks w') j = nth_error (tasks w) j) /\
    nth_error (tasks w') taskIndex = Some updated /\
    id updated = id task /\
    createdAt updated = createdAt task /\
    completed updated = completed task /\
    title updated = title' /\
    description updated = description' /\
    dueDate updated = dueDate' /\
    priority updated = orDefault priority' (priority task) /\
    projectId updated = orDefault projectId' (projectId task).
Proof.
  intros Hfind Hnth.
  destruct (update_tasks w id' title' description' dueDate' priority' projectId'
              taskIndex task Hfind Hnth) as [stored E].
  eexists. eexists. split; [reflexivity|]. rewrite E.
  split; [apply length_assign|].
  split; [intros j Hj; apply nth_error_assign_other; auto|].
  split; [eapply nth_error_assign; exact Hnth|].
  repeat split.
Qed.

Lemma update_touches_one_task_witness :
  exists updated w',
    w' = exec (updateTaskWithLogic (id submitReport) "Submit the report"
                 (Some "by noon") (Some (sampleNow + oneHour)) None (Some "personal"))
              (sampleWorld [callHome; submitReport]) /\
    List.length (tasks w') = List.length (tasks (sampleWorld [callHome; submitReport])) /\
    (forall j, j <> 1%nat ->
       nth_error (tasks w') j = nth_error (tasks (sampleWorld [callHome; submitReport])) j) /\
    nth_error (tasks w') 1 = Some updated /\
    id updated = id submitReport /\
    createdAt updated = createdAt submitReport /\
    completed updated = completed submitReport /\
    title updated = "Submit the report" /\
    description updated = Some "by noon" /\
    dueDate updated = Some (sampleNow + oneHour) /\
    priority updated = orDefault None (priority submitReport) /\
    projectId updated = orDefault (Some "personal") (projectId submitReport).
Proof.
  apply (update_touches_one_task (sampleWorld [callHome; submitReport])
           (id submitReport) "Submit the report" (Some "by noon")
           (Some (sampleNow + oneHour)) None (Some "personal") 1%nat submitReport);
    reflexivity.
Defined.

(** X9.  Renaming a task whose due date stays the same, is strictly in the
    future, and whose reminder identifier is held: the old reminder is
    cancelled, a reminder under the new title is scheduled for the same date,
    and the list is saved.  The identifier the scheduler answers with
    replaces the old one; when the scheduler fails the task keeps the old
    identifier, the one that was just cancelled. *)
Theorem rename_replaces_reminder
    (w : World) (id' title' : string) (description' : option string)
    (priority' : option Priority) (projectId' : option string)
    (taskIndex : nat) (task : Task) (old : string) (d : Z) :
  findIndex (fun t => String.eqb (id t) id') (tasks w) = Some taskIndex ->
  nth_error (tasks w) taskIndex = Some task ->
  title' <> title task ->
  truthyId (notificationId task) = Some old ->
  dueDate task = Some d -> Z.of_N (clock w) < d ->
  exists updated w',
    w' = exec (updateTaskWithLogic id' title' description' (dueDate task)
                                   priority' projectId') w /\
    nth_error (tasks w') taskIndex = Some updated /\
    trace w' = trace w ++ [CancelNotification old;
                           ScheduleNotification title' "Task is due now!" d;
                           SetItem (tasks w')] /\
    (forall n rest, outcomes w = Resolves n :: rest -> n <> "" ->
       notificationId updated = Some n) /\
    (forall rest, outcomes w = Rejects :: rest ->
       notificationId updated = Some old).
Proof.
  intros Hfind Hnth Ht Hold Hd Hlt.
  assert (Ho : notificationId task = Some old).
  { revert Hold. destruct (notificationId task) as [s|]; simpl; [|discriminate].
    destruct (String.eqb s ""); congruence. }
  unfold updateTaskWithLogic, exec, bind, readTasks. simpl.
  rewrite Hfind, Hnth, Hold, Hd.
  assert (Hn : dateNeq (Some d) (Some d) = false) by (simpl; rewrite Z.eqb_refl; reflexivity).
  rewrite Hn.
  destruct (String.eqb_spec title' (title task)) as [|_]; [contradiction|]. simpl.
  hook_unfold. simpl.
  destruct (Z.eqb_spec d 0); [lia|]. simpl.
  destruct (Z.gtb_spec d (Z.of_N (clock w))); [|lia]. simpl.
  destruct (Z.leb_spec d (Z.of_N (clock w))); [lia|]. simpl.
  destruct (outcomes w) as [|[answer|] rest] eqn:Eo; simpl.
  all: try destruct (String.eqb_spec answer "") as [->|Hne]; simpl.
  all: eexists; eexists; split; [reflexivity|]; simpl.
  all: (split; [eapply nth_error_assign; exact Hnth|]).
  all: rewrite <- ?app_assoc; simpl.
  all: split; [reflexivity|].
  all: split; intros; try discriminate; try congruence.
Qed.

Lemma rename_replaces_reminder_witness :
  exists updated w',
    w' = exec (updateTaskWithLogic (id submitReport) "Submit the report" None
                 (dueDate submitReport) None None)
              (sampleWorld [callHome; submitReport]) /\
    nth_error (tasks w') 1 = Some updated /\
    trace w' = trace (sampleWorld [callHome; submitReport])
                 ++ [CancelNotification "reminder-1";
                     ScheduleNotification "Submit the report" "Task is due now!"
                                          (sampleNow + oneHour);
                     SetItem (tasks w')] /\
    (forall n rest,
       outcomes (sampleWorld [callHome; submitReport]) = Resolves n :: rest ->
       n <> "" -> notificationId updated = Some n) /\
    (forall rest,
       outcomes (sampleWorld [callHome; submitReport]) = Rejects :: rest ->
       notificationId updated = Some "reminder-1").
Proof.
  apply (rename_replaces_reminder (sampleWorld [callHome; submitReport])
           (id submitReport) "Submit the report" None None None
           1%nat submitReport "reminder-1" (sampleNow + oneHour));
    try reflexivity; discriminate.
Defined.

Lemma update_carries_identifier
    (w : World) (id' title' : string) (description' : option string)
    (priority' : option Priority) (projectId' : option string)
    (taskIndex : nat) (task : Task) :
  findIndex (fun t => String.eqb (id t) id') (tasks w) = Some taskIndex ->
  nth_error (tasks w) taskIndex = Some task ->
  title' = title task \/ truthyId (notificationId task) = None \/
    inFuture w (dueDate task) = false ->
  exists updated w',
    w' = exec (updateTaskWithLogic id' title' description' (dueDate task)
                                   priority' projectId') w /\
    nth_error (tasks w') taskIndex = Some updated /\
    notificationId updated = notificationId task /\
    trace w' = trace w ++ [SetItem (tasks w')] /\
    outcomes w' = outcomes w.
Proof.
  intros Hfind Hnth Hcase.
  unfold updateTaskWithLogic, exec, bind, readTasks. simpl.
  rewrite Hfind, Hnth.
  assert (Hn : dateNeq (dueDate task) (dueDate task) = false).
  { destruct (dueDate task); simpl; [rewrite Z.eqb_refl|]; reflexivity. }
  rewrite Hn. unfold inFuture in Hcase.
  hook_unfold.
  destruct (String.eqb_spec title' (title task)) as [Et|Et]; simpl.
  all: destruct (truthyId (notificationId task)) as [old|] eqn:Hold; simpl.
  all: try destruct (dueDate task) as [d|] eqn:Hd; simpl.
  all: try destruct (Z.eqb_spec d 0) as [->|Hz]; simpl.
  all: try destruct (d >? Z.of_N (clock w)) eqn:Hgt; simpl.
  all: try (exfalso; destruct Hcase as [H|[H|H]]; [congruence | discriminate | lia]).
  all: eexists; eexists; split; [reflexivity|]; simpl.
  all: (split; [eapply nth_error_assign; exact Hnth|]).
  all: repeat split.
Qed.

(** X10.  An update that keeps the due date and either keeps the title, or
    finds no reminder identifier on the task, or finds the due date not
    strictly in the future, calls the scheduler not at all: the list is
    saved, the scheduler's answers stay unused, and the task keeps the
    identifier it had. *)
Theorem update_without_reminder_change
    (w : World) (id' title' : string) (description' : option string)
    (priority' : option Priority) (projectId' : option string)
    (taskIndex : nat) (task : Task) :
  findIndex (fun t => String.eqb (id t) id') (tasks w) = Some taskIndex ->
  nth_error (tasks w) taskIndex = Some task ->
  title' = title task \/ truthyId (notificationId task) = None \/
    inFuture w (dueDate task) = false ->
  exists updated w',
    w' = exec (updateTaskWithLogic id' title' description' (dueDate task)
                                   priority' projectId') w /\
    nth_error (tasks w') taskIndex = Some updated /\
    notificationId updated = notificationId task /\
    trace w' = trace w ++ [SetItem (tasks w')] /\
    outcomes w' = outcomes w.
Proof. apply update_carries_identifier. Qed.

Lemma update_without_reminder_change_witness :
  exists updated w',
    w' = exec (updateTaskWithLogic (id submitReport) (title submitReport)
                 (Some "before lunch") (dueDate submitReport) (Some P1) None)
              (sampleWorld [callHome; submitReport]) /\
    nth_error (tasks w') 1 = Some updated /\
    notificationId updated = notificationId submitReport /\
    trace w' = trace (sampleWorld [callHome; submitReport]) ++ [SetItem (tasks w')] /\
    outcomes w' = outcomes (sampleWorld [callHome; submitReport]).
Proof.
  apply (update_without_reminder_change (sampleWorld [callHome; submitReport])
           (id submitReport) (title submitReport) (Some "before lunch")
           (Some P1) None 1%nat submitReport).
  - reflexivity.
  - reflexivity.
  - left. reflexivity.
Defined.

(** ** [addTask] and [deleteTask], continued *)

Lemma add_tasks
    (w : World) (title' : string) (description' : option string)
    (dueDate' : option Z) (priority' : option Priority) (projectId' : option string) :
  exists stored,
    tasks (exec (addTask title' description' dueDate' priority' projectId') w)
    = mkTask (toString (Z.of_N (clock w))) title' description' false
             (Z.of_N (clock w)) dueDate' (orDefault priority' P4)
             (orDefault projectId' "inbox") stored
      :: tasks w /\
    clock (exec (addTask title' description' dueDate' priority' projectId') w)
    = clock w /\
    (inFuture w dueDate' = false -> stored = None) /\
    (stored <> Some "").
Proof.
  unfold inFuture. hook_cases; eexists; repeat split;
    try discriminate; try (intros; lia).
  all: try (intros [= E]; subst; discriminate).
Qed.

Lemma delete_tasks (w : World) (id' : string) :
  tasks (exec (deleteTask id' PressDelete) w)
  = filter (fun t => negb (String.eqb (id t) id')) (tasks w) /\
  trace (exec (deleteTask id' PressDelete) w)
  = trace w
      ++ match find (fun t => String.eqb (id t) id') (tasks w) with
         | Some task => cancellation task
         | None => []
         end
      ++ [SetItem (filter (fun t => negb (String.eqb (id t) id')) (tasks w))].
Proof.
  unfold cancellation. hook_cases; rewrite <- ?app_assoc; split; reflexivity.
Qed.

Lemma filter_other_ids (id' : string) (l : list Task) :
  ~ In id' (map id l) ->
  filter (fun t => negb (String.eqb (id t) id')) l = l.
Proof.
  intros H. apply filter_all, Forall_forall. intros t Ht.
  rewrite (id_absent id' l H t Ht). reflexivity.
Qed.

(** X11.  Adding a task and then deleting it, while no other task carries the
    identifier the new task was given (the clock reading in decimal), gives
    back the task list as it was; the delete cancels the reminder that the
    add stored, if it stored one, and saves the old list. *)
Theorem add_then_delete_restores_list
    (w : World) (title' : string) (description' : option string)
    (dueDate' : option Z) (priority' : option Priority) (projectId' : option string) :
  ~ In (toString (Z.of_N (clock w))) (map id (tasks w)) ->
  exists newTask w1 w2,
    w1 = exec (addTask title' description' dueDate' priority' projectId') w /\
    w2 = exec (deleteTask (id newTask) PressDelete) w1 /\
    tasks w1 = newTask :: tasks w /\
    tasks w2 = tasks w /\
    trace w2 = trace w1 ++ cancellation newTask ++ [SetItem (tasks w)].
Proof.
  intros Hfresh.
  destruct (add_tasks w title' description' dueDate' priority' projectId')
    as (stored & E & _).
  remember (exec (addTask title' description' dueDate' priority' projectId') w)
    as w1 eqn:Ew1.
  destruct (delete_tasks w1 (toString (Z.of_N (clock w)))) as [Ht Htr].
  eexists. exists w1. eexists.
  split; [reflexivity|]. split; [reflexivity|]. split; [exact E|].
  cbn [id]. rewrite Ht, Htr, E. simpl. rewrite String.eqb_refl. simpl.
  rewrite (filter_other_ids _ _ Hfresh). split; reflexivity.
Qed.

Lemma add_then_delete_restores_list_witness :
  exists newTask w1 w2,
    w1 = exec (addTask "Water plants" None (Some (sampleNow + oneHour)) None None)
              (sampleWorld [callHome; submitReport]) /\
    w2 = exec (deleteTask (id newTask) PressDelete) w1 /\
    tasks w1 = newTask :: tasks (sampleWorld [callHome; submitReport]) /\
    tasks w2 = tasks (sampleWorld [callHome; submitReport]) /\
    trace w2 = trace w1 ++ cancellation newTask
                 ++ [SetItem (tasks (sampleWorld [callHome; submitReport]))].
Proof.
  apply (add_then_delete_restores_list (sampleWorld [callHome; submitReport])
           "Water plants" None (Some (sampleNow + oneHour)) None None).
  simpl. intros [H|[H|[]]]; discriminate H.
Defined.

(** X12.  Two tasks added while the clock shows the same millisecond get the
    same identifier.  A confirmed delete of that identifier then removes both
    of them, and cancels the reminder of the later one only. *)
Theorem same_clock_adds_share_identifier
    (w : World)
    (title1 : string) (description1 : option string) (dueDate1 : option Z)
    (priority1 : option Priority) (projectId1 : option string)
    (title2 : string) (description2 : option string) (dueDate2 : option Z)
    (priority2 : option Priority) (projectId2 : option string) :
  exists first second w2 w3,
    w2 = exec (addTask title2 description2 dueDate2 priority2 projectId2)
           (exec (addTask title1 description1 dueDate1 priority1 projectId1) w) /\
    tasks w2 = second :: first :: tasks w /\
    title first = title1 /\ title second = title2 /\
    id first = id second /\
    w3 = exec (deleteTask (id second) PressDelete) w2 /\
    ~ In first (tasks w3) /\ ~ In second (tasks w3) /\
    trace w3 = trace w2 ++ cancellation second ++ [SetItem (tasks w3)].
Proof.
  destruct (add_tasks w title1 description1 dueDate1 priority1 projectId1)
    as (stored1 & E1 & C1 & _).
  destruct (add_tasks
              (exec (addTask title1 description1 dueDate1 priority1 projectId1) w)
              title2 description2 dueDate2 priority2 projectId2)
    as (stored2 & E2 & _).
  rewrite E1, C1 in E2.
  remember (exec (addTask title2 description2 dueDate2 priority2 projectId2)
              (exec (addTask title1 description1 dueDate1 priority1 projectId1) w))
    as w2 eqn:Ew2.
  destruct (delete_tasks w2 (toString (Z.of_N (clock w)))) as [Ht Htr].
  eexists. eexists. exists w2. eexists.
  split; [reflexivity|]. split; [exact E2|]. cbn [id title].
  repeat (split; [reflexivity|]).
  rewrite Ht, Htr, E2. simpl. rewrite String.eqb_refl. simpl.
  repeat split.
  - intros H. apply filter_In in H. destruct H as [_ H]. simpl in H.
    rewrite String.eqb_refl in H. discriminate.
  - intros H. apply filter_In in H. destruct H as [_ H]. simpl in H.
    rewrite String.eqb_refl in H. discriminate.
Qed.

(** ** Invariants of the task list *)

Lemma update_ids
    (w : World) (id' title' : string) (description' : option string)
    (dueDate' : option Z) (priority' : option Priority) (projectId' : option string) :
  map id (tasks (exec (updateTaskWithLogic id' title' description' dueDate'
                                           priority' projectId') w))
  = map id (tasks w).
Proof.
  destruct (findIndex (fun t => String.eqb (id t) id') (tasks w)) as [i|] eqn:Hf.
  - destruct (findIndex_Some _ _ _ Hf) as (task & Hn & _).
    destruct (update_tasks w id' title' description' dueDate' priority' projectId'
                i task Hf Hn) as [stored E].
    rewrite E. eapply map_assign; [exact Hn | reflexivity].
  - unfold updateTaskWithLogic, exec, bind, readTasks. simpl. rewrite Hf. reflexivity.
Qed.

Lemma toggle_ids (w : World) (id' : string) :
  map id (tasks (exec (toggleTask id') w)) = map id (tasks w).
Proof.
  destruct (find (fun t => String.eqb (id t) id') (tasks w)) as [task|] eqn:Hf.
  - rewrite (toggle_tasks w id' task Hf), map_map. apply map_ext. intros t.
    destruct (String.eqb (id t) id'); reflexivity.
  - unfold toggleTask, exec, bind, readTasks. simpl. rewrite Hf. reflexivity.
Qed.

Lemma unique_ids_filter (keep : Task -> bool) (l : list Task) :
  NoDup (map id l) -> NoDup (map id (filter keep l)).
Proof.
  intros U. induction l as [|x l IH]; simpl; [constructor|].
  simpl in U. apply NoDup_cons_iff in U. destruct U as [N U].
  destruct (keep x); simpl; [|auto].
  constructor; [|auto].
  intros Hin. apply N. apply in_map_iff in Hin. destruct Hin as (y & E & Hy).
  apply filter_In in Hy. rewrite <- E. apply in_map, Hy.
Qed.

(** X13.  Unique identifiers are an invariant of update, toggle and delete,
    whatever their arguments; an add keeps them unique when no task already
    carries the decimal clock reading as its identifier. *)
Theorem identifiers_stay_unique
    (w : World) (id' title' : string) (description' : option string)
    (dueDate' : option Z) (priority' : option Priority) (projectId' : option string)
    (answer : Answer) :
  NoDup (map id (tasks w)) ->
  NoDup (map id (tasks (exec (updateTaskWithLogic id' title' description' dueDate'
                                                  priority' projectId') w))) /\
  NoDup (map id (tasks (exec (toggleTask id') w))) /\
  NoDup (map id (tasks (exec (deleteTask id' answer) w))) /\
  (~ In (toString (Z.of_N (clock w))) (map id (tasks w)) ->
   NoDup (map id (tasks (exec (addTask title' description' dueDate'
                                       priority' projectId') w)))).
Proof.
  intros U. repeat split.
  - rewrite update_ids. exact U.
  - rewrite toggle_ids. exact U.
  - destruct answer; try exact U.
    rewrite (proj1 (delete_tasks w id')). apply unique_ids_filter, U.
  - intros Hfresh.
    destruct (add_tasks w title' description' dueDate' priority' projectId')
      as (stored & E & _).
    rewrite E. simpl. constructor; assumption.
Qed.

Lemma identifiers_stay_unique_witness :
  NoDup (map id (tasks (exec (updateTaskWithLogic (id submitReport) "Renamed" None
                                None None None)
                             (sampleWorld [callHome; submitReport])))) /\
  NoDup (map id (tasks (exec (toggleTask (id submitReport))
                             (sampleWorld [callHome; submitReport])))) /\
  NoDup (map id (tasks (exec (deleteTask (id submitReport) PressDelete)
                             (sampleWorld [callHome; submitReport])))) /\
  (~ In (toString (Z.of_N (clock (sampleWorld [callHome; submitReport]))))
        (map id (tasks (sampleWorld [callHome; submitReport]))) ->
   NoDup (map id (tasks (exec (addTask "Water plants" None None None None)
                              (sampleWorld [callHome; submitReport]))))).
Proof.
  apply (identifiers_stay_unique (sampleWorld [callHome; submitReport])
           (id submitReport) "Renamed" None None None None PressDelete).
  simpl. repeat constructor; simpl; intuition discriminate.
Defined.

Lemma update_stored_truthy
    (w : World) (id' title' : string) (description' : option string)
    (dueDate' : option Z) (priority' : option Priority) (projectId' : option string) :
  identifiersTruthy (tasks w) ->
  identifiersTruthy
    (tasks (exec (updateTaskWithLogic id' title' description' dueDate'
                                      priority' projectId') w)).
Proof.
  intros H.
  destruct (findIndex (fun t => String.eqb (id t) id') (tasks w)) as [i|] eqn:Hf.
  2:{ unfold updateTaskWithLogic, exec, bind, readTasks. simpl. rewrite Hf. exact H. }
  destruct (findIndex_Some _ _ _ Hf) as (task & Hn & _).
  assert (Ht : notificationId task <> Some "").
  { unfold identifiersTruthy in H. rewrite Forall_forall in H.
    apply H. eapply nth_error_In. exact Hn. }
  assert (G : forall l x, identifiersTruthy l -> notificationId x <> Some "" ->
                     identifiersTruthy (assign l i x)).
  { clear. intros l; revert i. induction l as [|y l IH]; intros [|i] x Hl Hx; simpl.
    - constructor.
    - constructor.
    - inversion Hl. constructor; assumption.
    - inversion Hl. constructor; [assumption | apply IH; assumption]. }
  unfold updateTaskWithLogic, exec, bind, readTasks. simpl. rewrite Hf, Hn.
  hook_cases; apply G; try exact H; simpl; try exact Ht; try discriminate.
  all: try (intros [= E]; subst;
            match goal with
            | X : (String.eqb "" "") = false |- _ => discriminate X
            end).
Qed.

(** X14.  No operation ever stores the empty string as a reminder
    identifier: if no task of the list holds it before an add, an update, a
    toggle or a delete, none holds it afterwards. *)
Theorem stored_identifiers_stay_truthy
    (w : World) (id' title' : string) (description' : option string)
    (dueDate' : option Z) (priority' : option Priority) (projectId' : option string)
    (answer : Answer) :
  identifiersTruthy (tasks w) ->
  identifiersTruthy (tasks (exec (addTask title' description' dueDate'
                                          priority' projectId') w)) /\
  identifiersTruthy (tasks (exec (updateTaskWithLogic id' title' description'
                                    dueDate' priority' projectId') w)) /\
  identifiersTruthy (tasks (exec (toggleTask id') w)) /\
  identifiersTruthy (tasks (exec (deleteTask id' answer) w)).
Proof.
  intros H. repeat split.
  - destruct (add_tasks w title' description' dueDate' priority' projectId')
      as (stored & E & _ & _ & Hs).
    rewrite E. constructor; assumption.
  - apply update_stored_truthy, H.
  - destruct (find (fun t => String.eqb (id t) id') (tasks w)) as [task|] eqn:Hf.
    + rewrite (toggle_tasks w id' task Hf).
      unfold identifiersTruthy in *. rewrite Forall_forall in *.
      intros t Ht. apply in_map_iff in Ht. destruct Ht as (u & <- & Hu).
      destruct (String.eqb (id u) id'); simpl; apply H, Hu.
    + unfold toggleTask, exec, bind, readTasks. simpl. rewrite Hf. exact H.
  - destruct answer; try exact H.
    rewrite (proj1 (delete_tasks w id')).
    unfold identifiersTruthy in *. rewrite Forall_forall in *.
    intros t Ht. apply filter_In in Ht. apply H, Ht.
Qed.

Lemma stored_identifiers_stay_truthy_witness :
  identifiersTruthy (tasks (exec (addTask "Renamed" None
                                    (Some (sampleNow + oneDay)) None None)
                                 (sampleWorld [callHome; submitReport]))) /\
  identifiersTruthy (tasks (exec (updateTaskWithLogic (id submitReport) "Renamed" None
                                    (Some (sampleNow + oneDay)) None None)
                                 (sampleWorld [callHome; submitReport]))) /\
  identifiersTruthy (tasks (exec (toggleTask (id submitReport))
                                 (sampleWorld [callHome; submitReport]))) /\
  identifiersTruthy (tasks (exec (deleteTask (id submitReport) PressDelete)
                                 (sampleWorld [callHome; submitReport]))).
Proof.
  apply (stored_identifiers_stay_truthy (sampleWorld [callHome; submitReport])
           (id submitReport) "Renamed" None (Some (sampleNow + oneDay)) None None
           PressDelete).
  repeat constructor; discriminate.
Defined.

(** ** [loadTasks] *)

Lemma migrate_written (t : Task) :
  projectId t <> "" -> migrate (written t) = t.
Proof.
  intros H. destruct t as [i ti de co cr du pr pj no]. unfold migrate, written. simpl in *.
  destruct (String.eqb_spec pj ""); [contradiction | reflexivity].
Qed.

Lemma migrate_project (r : Stored.task) : projectId (migrate r) <> "".
Proof.
  unfold migrate. simpl. destruct (Stored.projectId r) as [p|]; simpl; [|discriminate].
  destruct (String.eqb_spec p ""); simpl; [discriminate | assumption].
Qed.

(** X15.  Saving and loading round-trip.  A list in which every task has a
    non-empty project reference is loaded back exactly as it was written, and
    [loading] ends [false]; a task written with the empty string as its
    project comes back in the ["inbox"] project, all its other fields
    unchanged. *)
Theorem saved_list_loads_back (h : TasksHook) (l : list Task) :
  loading (loadTasks (Records (map written l)) h) = false /\
  tasks (world (loadTasks (Records (map written l)) h))
  = map (fun t => if String.eqb (projectId t) ""
                  then mkTask (id t) (title t) (description t) (completed t)
                              (createdAt t) (dueDate t) (priority t) "inbox"
                              (notificationId t)
                  else t) l /\
  (Forall (fun t => projectId t <> "") l ->
   tasks (world (loadTasks (Records (map written l)) h)) = l).
Proof.
  split; [reflexivity|].
  assert (E : tasks (world (loadTasks (Records (map written l)) h))
              = map (fun t => migrate (written t)) l).
  { simpl. unfold exec, setTasks. simpl. apply map_map. }
  rewrite E. split.
  - apply map_ext. intros t. destruct (String.eqb_spec (projectId t) "") as [Ep|Ep].
    + destruct t as [i ti de co cr du pr pj no]. simpl in *. subst. reflexivity.
    + apply migrate_written, Ep.
  - intros H. rewrite <- (map_id l) at 2. apply map_ext_in. intros t Ht.
    rewrite Forall_forall in H. apply migrate_written, H, Ht.
Qed.

(** X16.  Loading is stable and never fails.  Whatever records the store
    holds, old ones without [priority] or [projectId] included, writing the
    loaded list and loading it again gives the same list; when the store
    holds nothing or cannot be read, the task list stays as it is and no
    call is made; in every case [loading] ends [false]. *)
Theorem load_is_stable (h : TasksHook) (item : Item) :
  loading (loadTasks item h) = false /\
  (item = Absent \/ item = Unreadable -> world (loadTasks item h) = world h) /\
  (forall loaded, item = Records loaded ->
     trace (world (loadTasks item h)) = trace (world h) /\
     tasks (world (loadTasks (Records (map written (tasks (world (loadTasks item h)))))
                             (loadTasks item h)))
     = tasks (world (loadTasks item h))).
Proof.
  split; [destruct item; reflexivity|].
  split; [intros [->| ->]; reflexivity|].
  intros loaded ->. split; [reflexivity|].
  simpl. unfold exec, setTasks. simpl.
  rewrite !map_map. apply map_ext. intros r.
  apply migrate_written, migrate_project.
Qed.

(** ** The task form *)

Lemma findIndex_first (id' : string) (l : list Task) (i : nat) (task : Task) :
  findIndex (fun t => String.eqb (id t) id') l = Some i ->
  nth_error l i = Some task -> id task = id'.
Proof.
  intros Hf Hn. destruct (findIndex_Some _ _ _ Hf) as (x & Hx & Hp).
  rewrite Hn in Hx. injection Hx as <-. apply String.eqb_eq, Hp.
Qed.

(** X17.  Opening the form on a task of the list and saving it untouched
    (the title is not blank, the due date is not timestamp 0) calls the
    scheduler not at all and leaves the task as it was, except that a missing
    or empty description is stored as the empty string: the reminder
    identifier, the due date, the priority and the project stay, the list is
    saved, and the form closes. *)
Theorem save_untouched_form
    (trim : string -> string) (app : App) (taskIndex : nat) (task : Task) :
  findIndex (fun t => String.eqb (id t) (id task)) (tasks (hook app)) = Some taskIndex ->
  nth_error (tasks (hook app)) taskIndex = Some task ->
  trim (title task) <> "" ->
  dueDate task <> Some 0 ->
  exists app',
    app' = handleSave trim (formFor (Some task)) (handleEditTask task app) /\
    modalVisible app' = false /\
    tasks (hook app')
    = assign (tasks (hook app)) taskIndex
        (mkTask (id task) (title task)
                (Some (orDefault (truthyId (description task)) ""))
                (completed task) (createdAt task) (dueDate task) (priority task)
                (projectId task) (notificationId task)) /\
    trace (hook app') = trace (hook app) ++ [SetItem (tasks (hook app'))] /\
    outcomes (hook app') = outcomes (hook app).
Proof.
  intros Hfind Hnth Htitle Hdue.
  assert (Ed : truthyDate task = dueDate task).
  { unfold truthyDate. destruct (dueDate task) as [d|]; [|reflexivity].
    destruct (Z.eqb_spec d 0); [congruence | reflexivity]. }
  unfold handleSave, formFor, handleEditTask, handleSubmitTask, closeModal. simpl.
  destruct (String.eqb_spec (trim (title task)) ""); [contradiction|]. simpl.
  rewrite Ed.
  destruct (update_carries_identifier (hook app) (id task) (title task)
              (Some (orDefault (truthyId (description task)) ""))
              (Some (priority task)) (Some (projectId task)) taskIndex task
              Hfind Hnth (or_introl eq_refl))
    as (updated & w' & -> & Hu & Hid & Htr & Ho).
  destruct (update_tasks (hook app) (id task) (title task)
              (Some (orDefault (truthyId (description task)) ""))
              (dueDate task) (Some (priority task)) (Some (projectId task))
              taskIndex task Hfind Hnth) as [stored Et].
  eexists. split; [reflexivity|]. simpl.
  split; [reflexivity|].
  split; [|split; assumption].
  rewrite Et in Hu |- *.
  rewrite (nth_error_assign _ _ _ _ Hnth) in Hu. injection Hu as <-.
  simpl in Hid. rewrite Hid. reflexivity.
Qed.

Lemma save_untouched_form_witness :
  exists app',
    app' = handleSave (fun s => s) (formFor (Some submitReport))
             (handleEditTask submitReport
                (mkApp (sampleWorld [callHome; submitReport]) false None)) /\
    modalVisible app' = false /\
    tasks (hook app')
    = assign [callHome; submitReport] 1
        (mkTask (id submitReport) (title submitReport)
                (Some (orDefault (truthyId (description submitReport)) ""))
                (completed submitReport) (createdAt submitReport)
                (dueDate submitReport) (priority submitReport)
                (projectId submitReport) (notificationId submitReport)) /\
    trace (hook app') = [] ++ [SetItem (tasks (hook app'))] /\
    outcomes (hook app') = [Resolves "reminder-2"].
Proof.
  apply (save_untouched_form (fun s => s)
           (mkApp (sampleWorld [callHome; submitReport]) false None)
           1%nat submitReport).
  - reflexivity.
  - reflexivity.
  - discriminate.
  - discriminate.
Defined.

(** ** The list item *)

(** X19.  The two copies of [getPriorityColor], in the list item and in the
    form, give every priority the same colour, and different priorities get
    different colours. *)
Theorem priority_colours_agree_and_differ (p q : Priority) :
  TaskItem.getPriorityColor p = AddTaskModal.getPriorityColor p /\
  (TaskItem.getPriorityColor p = TaskItem.getPriorityColor q -> p = q).
Proof.
  split; [destruct p; reflexivity|].
  destruct p, q; simpl; intros H; try reflexivity; discriminate H.
Qed.

(** ** Project references *)

Lemma Forall_assign {A : Type} (P : A -> Prop) (l : list A) (i : nat) (x : A) :
  Forall P l -> P x -> Forall P (assign l i x).
Proof.
  revert i. induction l as [|y l IH]; intros [|i] Hl Hx; simpl.
  - constructor.
  - constructor.
  - inversion Hl. constructor; assumption.
  - inversion Hl. constructor; [assumption | apply IH; assumption].
Qed.

(** X20.  Project references stay resolvable.  If every task of the list
    refers to one of the four projects, and the project submitted with an add
    or an update, when one is submitted, is one of them too, then after an
    add, an update, a toggle or a delete every task still refers to one of the
    projects; a task added without a project lands in ["inbox"], which is one
    of them; and every record loaded from the store does so after the
    migration when its own reference, if it has one, does. *)
Theorem project_references_stay_resolvable
    (w : World) (id' title' : string) (description' : option string)
    (dueDate' : option Z) (priority' : option Priority) (projectId' : option string)
    (answer : Answer) :
  Forall (fun t => resolves (projectId t) = true) (tasks w) ->
  (forall p, projectId' = Some p -> resolves p = true) ->
  Forall (fun t => resolves (projectId t) = true)
         (tasks (exec (addTask title' description' dueDate' priority' projectId') w)) /\
  Forall (fun t => resolves (projectId t) = true)
         (tasks (exec (updateTaskWithLogic id' title' description' dueDate'
                                           priority' projectId') w)) /\
  Forall (fun t => resolves (projectId t) = true) (tasks (exec (toggleTask id') w)) /\
  Forall (fun t => resolves (projectId t) = true)
         (tasks (exec (deleteTask id' answer) w)) /\
  (forall r,
     (forall p, Stored.projectId r = Some p -> p <> "" -> resolves p = true) ->
     resolves (projectId (migrate r)) = true).
Proof.
  intros H Hp.
  assert (D : forall own, resolves own = true ->
                resolves (orDefault projectId' own) = true).
  { intros own Ho. destruct projectId' as [p|]; simpl; auto. }
  repeat split.
  - destruct (add_tasks w title' description' dueDate' priority' projectId')
      as (stored & E & _).
    rewrite E. constructor; [|exact H]. simpl. apply D. reflexivity.
  - destruct (findIndex (fun t => String.eqb (id t) id') (tasks w)) as [i|] eqn:Hf.
    + destruct (findIndex_Some _ _ _ Hf) as (task & Hn & _).
      destruct (update_tasks w id' title' description' dueDate' priority' projectId'
                  i task Hf Hn) as [stored E].
      rewrite E. apply Forall_assign; [exact H|]. simpl. apply D.
      rewrite Forall_forall in H. apply H. eapply nth_error_In. exact Hn.
    + unfold updateTaskWithLogic, exec, bind, readTasks. simpl. rewrite Hf. exact H.
  - destruct (find (fun t => String.eqb (id t) id') (tasks w)) as [task|] eqn:Hf.
    + rewrite (toggle_tasks w id' task Hf).
      rewrite Forall_forall in *. intros t Ht.
      apply in_map_iff in Ht. destruct Ht as (u & <- & Hu).
      destruct (String.eqb (id u) id'); simpl; apply H, Hu.
    + unfold toggleTask, exec, bind, readTasks. simpl. rewrite Hf. exact H.
  - destruct answer; try exact H.
    rewrite (proj1 (delete_tasks w id')).
    rewrite Forall_forall in *. intros t Ht. apply filter_In in Ht. apply H, Ht.
  - intros r Hr. unfold migrate. simpl.
    destruct (Stored.projectId r) as [p|]; simpl; [|reflexivity].
    destruct (String.eqb_spec p ""); simpl; [reflexivity|].
    apply Hr; [reflexivity | assumption].
Qed.

Lemma project_references_stay_resolvable_witness :
  Forall (fun t => resolves (projectId t) = true)
         (tasks (exec (addTask "Buy milk" None None None (Some "shopping"))
                      (sampleWorld [callHome; submitReport]))) /\
  Forall (fun t => resolves (projectId t) = true)
         (tasks (exec (updateTaskWithLogic (id submitReport) "Buy milk" None None
                         None (Some "shopping"))
                      (sampleWorld [callHome; submitReport]))) /\
  Forall (fun t => resolves (projectId t) = true)
         (tasks (exec (toggleTask (id submitReport))
                      (sampleWorld [callHome; submitReport]))) /\
  Forall (fun t => resolves (projectId t) = true)
         (tasks (exec (deleteTask (id submitReport) PressDelete)
                      (sampleWorld [callHome; submitReport]))) /\
  (forall r,
     (forall p, Stored.projectId r = Some p -> p <> "" -> resolves p = true) ->
     resolves (projectId (migrate r)) = true).
Proof.
  apply (project_references_stay_resolvable (sampleWorld [callHome; submitReport])
           (id submitReport) "Buy milk" None None None (Some "shopping") PressDelete).
  - repeat constructor.
  - intros p [= <-]. reflexivity.
Defined.

(** ** A rule of the comparator that never applies *)

(** X21.  The comparator's rule that a task with a due date comes before one
    without never decides a comparison: two tasks that get past the overdue
    test (their overdue flags are not told apart by [!==]) either both have a
    due date the code reads as one, or both have none. *)
Theorem date_before_no_date_never_applies (now : Z) (x y : Task) :
  Js.strictNeq (overdueFlag now x) (overdueFlag now y) = false ->
  (truthyDate x = None <-> truthyDate y = None).
Proof.
  unfold_compare.
  destruct (dueDate x) as [dx|], (dueDate y) as [dy|]; simpl;
    try destruct (Z.eqb_spec dx 0); try destruct (Z.eqb_spec dy 0); simpl;
    intros H; try discriminate H; split; intros E; try reflexivity; try discriminate E.
Qed.

Lemma date_before_no_date_never_applies_witness :
  truthyDate taskA = None <-> truthyDate payRent = None.
Proof.
  apply (date_before_no_date_never_applies sampleNow taskA payRent); reflexivity.
Defined.

(** * The order under any sort procedure *)

Lemma filteredAndSortedTasksBy_insertionSort
    (now : Z) (sel : option string) (l : list Task) :
  filteredAndSortedTasksBy insertionSort now sel l = filteredAndSortedTasks now sel l.
Proof. reflexivity. Qed.

(** ** Chains of comparator answers *)

Section Chains.

Context {A : Type}.
Variable comparefn : A -> A -> Z.

Local Abbreviation chain := (clos_trans A (backs comparefn)).

(** In an array read from right to left: a chain leads to every element from
    each element to its left. *)
Local Abbreviation chainedRev :=
  (StronglySorted (fun e b : A => clos_trans A (backs comparefn) b e)).

Lemma chainedRev_sift (x : A) (rl : list A) :
  chainedRev rl -> chainedRev (sift comparefn x rl).
Proof.
  induction rl as [|y rest IH]; simpl; intros H.
  - repeat constructor.
  - apply StronglySorted_inv in H. destruct H as [Hrest Hy].
    unfold less. destruct (Z.ltb_spec (comparefn x y) 0) as [Hlt|Hge].
    + constructor; [auto|].
      eapply Permutation_Forall; [symmetry; apply sift_perm|].
      constructor; [|exact Hy].
      apply t_step. left. lia.
    + assert (Hyx : chain y x) by (apply t_step; right; lia).
      constructor; [constructor; assumption|].
      constructor; [exact Hyx|].
      rewrite Forall_forall in *. intros b Hb.
      eapply t_trans; [apply Hy, Hb | exact Hyx].
Qed.

Lemma chainedRev_run (l acc : list A) :
  chainedRev acc ->
  chainedRev (fold_left (fun sorted x => sift comparefn x sorted) l acc).
Proof.
  revert acc; induction l as [|x l IH]; intros acc H; simpl; auto using chainedRev_sift.
Qed.

Lemma chainedRev_before (rl : list A) (x y : A) :
  chainedRev rl -> before x y (rev rl) -> chain x y.
Proof.
  intros H (l1 & l2 & l3 & E).
  apply (f_equal (@rev A)) in E. rewrite rev_involutive in E.
  replace (l1 ++ x :: l2 ++ y :: l3) with ((l1 ++ x :: l2) ++ y :: l3) in E
    by (rewrite <- app_assoc; reflexivity).
  rewrite rev_app_distr in E. simpl in E. rewrite <- app_assoc in E. simpl in E.
  rewrite E in H.
  assert (T : forall u v, chainedRev (u ++ v) -> chainedRev v).
  { induction u as [|a u IH]; simpl; [trivial|].
    intros v Huv. apply StronglySorted_inv in Huv. apply IH, Huv. }
  apply T, StronglySorted_inv in H. destruct H as [_ H].
  rewrite Forall_forall in H. apply H.
  rewrite <- in_rev. apply in_or_app. right. left. reflexivity.
Qed.

Lemma sort_chained (l : list A) (x y : A) :
  before x y (sort comparefn l) -> chain x y.
Proof.
  intros H. apply (chainedRev_before (rev (sort comparefn l))).
  - rewrite sort_rev_run. apply chainedRev_run. constructor.
  - rewrite rev_involutive. exact H.
Qed.

(** A class of elements that the comparator puts in front, whichever way
    round it is asked: no chain leads into the class from outside. *)
Lemma chain_stays_in_front (P : A -> bool) :
  (forall x y, P x = true -> P y = false ->
     comparefn x y < 0 /\ 0 < comparefn y x) ->
  forall a b, chain a b -> P b = true -> P a = true.
Proof.
  intros dom a b H. induction H as [a b Hab | a m b _ IH1 _ IH2].
  - intros Pb. destruct (P a) eqn:Pa; [reflexivity|].
    destruct (dom b a Pb Pa) as [H1 H2]. destruct Hab; lia.
  - auto.
Qed.

End Chains.

(** The insertion loop is a comparison sort. *)
Lemma insertionSort_comparisonSort : comparisonSort insertionSort.
Proof.
  intros A comparefn l. split.
  - symmetry. apply sort_perm.
  - intros x y. apply sort_chained.
Qed.

(** ** The other loops are comparison sorts too *)

Section OtherLoopFacts.

Context {A : Type}.
Variable comparefn : A -> A -> Z.

Local Abbreviation chain := (clos_trans A (backs comparefn)).

Local Abbreviation turned := (turned comparefn).

(** The loop that asks the other way round is [sort] with the comparator
    turned round. *)
Lemma siftPast_turned (x : A) (rl : list A) :
  siftPast comparefn x rl = sift turned x rl.
Proof.
  induction rl as [|y rest IH]; simpl; [reflexivity|].
  unfold less, turned. rewrite IH.
  destruct (Z.ltb_spec 0 (comparefn y x)), (Z.ltb_spec (- comparefn y x) 0);
    try reflexivity; lia.
Qed.

Lemma sortByGreater_turned (l : list A) :
  sortByGreater comparefn l = sort turned l.
Proof.
  unfold sortByGreater, sort. f_equal.
  generalize (@nil A). induction l as [|x l IH]; intros acc; simpl; [reflexivity|].
  rewrite siftPast_turned. apply IH.
Qed.

Lemma backs_turned (a b : A) : backs turned a b <-> backs comparefn a b.
Proof. unfold backs, turned. lia. Qed.

Lemma chain_turned (a b : A) : clos_trans A (backs turned) a b -> chain a b.
Proof.
  induction 1 as [a b H | a m b _ IH1 _ IH2].
  - apply t_step, backs_turned, H.
  - eapply t_trans; eassumption.
Qed.

(** *** Binary insertion *)

Local Abbreviation chained := (StronglySorted (clos_trans A (backs comparefn))).

Lemma chained_app (u v : list A) :
  chained u -> chained v ->
  (forall a b, In a u -> In b v -> chain a b) ->
  chained (u ++ v).
Proof.
  induction u as [|a u IH]; simpl; intros Hu Hv Hc; [exact Hv|].
  apply StronglySorted_inv in Hu. destruct Hu as [Hu Ha].
  constructor.
  - apply IH; auto.
  - apply Forall_app. split; [exact Ha|].
    apply Forall_forall. intros b Hb. apply Hc; auto.
Qed.

Lemma chained_split (u v : list A) :
  chained (u ++ v) ->
  chained u /\ chained v /\ (forall a b, In a u -> In b v -> chain a b).
Proof.
  induction u as [|a u IH]; simpl; intros H.
  - repeat split; [constructor | exact H | contradiction].
  - apply StronglySorted_inv in H. destruct H as [H Ha].
    destruct (IH H) as (Hu & Hv & Hc). apply Forall_app in Ha. destruct Ha as [Hau Hav].
    repeat split; [constructor; assumption | exact Hv |].
    intros x b [<-|Hx] Hb; [|auto].
    rewrite Forall_forall in Hav. auto.
Qed.

Lemma chained_before (l : list A) (x y : A) :
  chained l -> before x y l -> chain x y.
Proof.
  intros H (l1 & l2 & l3 & ->).
  apply chained_split in H. destruct H as (_ & H & _).
  apply StronglySorted_inv in H. destruct H as [_ H].
  rewrite Forall_forall in H. apply H.
  apply in_or_app. right. left. reflexivity.
Qed.

Lemma binaryInsert_perm (fuel : nat) (pivot : A) (sorted : list A) :
  Permutation (binaryInsert comparefn fuel pivot sorted) (pivot :: sorted).
Proof.
  revert sorted. induction fuel as [|fuel IH]; intros sorted.
  - destruct sorted; simpl; [reflexivity|].
    symmetry. apply (Permutation_cons_append (a :: sorted) pivot).
  - destruct sorted as [|a sorted']; [reflexivity|].
    cbn [binaryInsert].
    remember (a :: sorted') as sorted eqn:Es.
    remember (Nat.div2 (List.length sorted)) as mid eqn:Em.
    destruct (skipn mid sorted) as [|middle above] eqn:Hs.
    + symmetry. apply Permutation_cons_append.
    + rewrite <- (firstn_skipn mid sorted) at 3. rewrite Hs.
      destruct (comparefn pivot middle <? 0).
      * rewrite IH. reflexivity.
      * rewrite IH. rewrite (Permutation_middle (firstn mid sorted) (middle :: above) pivot).
        apply Permutation_app_head. apply perm_swap.
Qed.

Lemma binaryInsert_chained (fuel : nat) (pivot : A) (sorted : list A) :
  (List.length sorted <= fuel)%nat -> chained sorted ->
  chained (binaryInsert comparefn fuel pivot sorted).
Proof.
  revert sorted. induction fuel as [|fuel IH]; intros sorted Hf Hc.
  - destruct sorted; simpl in *; [repeat constructor | lia].
  - destruct sorted as [|a sorted']; [repeat constructor|].
    cbn [binaryInsert].
    remember (a :: sorted') as sorted eqn:Es.
    remember (Nat.div2 (List.length sorted)) as mid eqn:Em.
    assert (Hmid : (mid < List.length sorted)%nat).
    { subst mid. apply Nat.lt_div2. subst sorted. simpl. lia. }
    destruct (skipn mid sorted) as [|middle above] eqn:Hs.
    + exfalso. apply (f_equal (@List.length A)) in Hs.
      rewrite length_skipn in Hs. simpl in Hs. lia.
    + pose proof (firstn_skipn mid sorted) as E. rewrite Hs in E.
      rewrite <- E in Hc. apply chained_split in Hc.
      destruct Hc as (Hleft & Hright & Hcross).
      pose proof Hright as Hright'.
      apply StronglySorted_inv in Hright'. destruct Hright' as [Hr Hm].
      rewrite Forall_forall in Hm.
      assert (Ll : (List.length (firstn mid sorted) <= fuel)%nat).
      { rewrite length_firstn. lia. }
      assert (Lr : (List.length above <= fuel)%nat).
      { apply (f_equal (@List.length A)) in Hs. rewrite length_skipn in Hs.
        simpl in Hs. lia. }
      destruct (Z.ltb_spec (comparefn pivot middle) 0) as [Hlt|Hge].
      * assert (Hpm : chain pivot middle) by (apply t_step; left; lia).
        apply chained_app; [apply IH; assumption | exact Hright |].
        intros x b Hx Hb.
        apply (Permutation_in _ (binaryInsert_perm fuel pivot _)) in Hx.
        destruct Hx as [<-|Hx]; [|apply Hcross; assumption].
        destruct Hb as [<-|Hb]; [exact Hpm|].
        eapply t_trans; [exact Hpm | apply Hm, Hb].
      * assert (Hmp : chain middle pivot) by (apply t_step; right; lia).
        apply chained_app; [exact Hleft | |].
        -- constructor; [apply IH; assumption|].
           apply Forall_forall. intros b Hb.
           apply (Permutation_in _ (binaryInsert_perm fuel pivot _)) in Hb.
           destruct Hb as [<-|Hb]; [exact Hmp | apply Hm, Hb].
        -- intros x b Hx [<-|Hb]; [apply Hcross; [exact Hx | left; reflexivity]|].
           apply (Permutation_in _ (binaryInsert_perm fuel pivot _)) in Hb.
           destruct Hb as [<-|Hb].
           ++ eapply t_trans; [apply Hcross; [exact Hx | left; reflexivity] | exact Hmp].
           ++ apply Hcross; [exact Hx | right; exact Hb].
Qed.

Lemma binarySort_run (l acc : list A) :
  chained acc ->
  chained (fold_left (fun sorted pivot =>
                        binaryInsert comparefn (List.length sorted) pivot sorted) l acc) /\
  Permutation (l ++ acc)
    (fold_left (fun sorted pivot =>
                  binaryInsert comparefn (List.length sorted) pivot sorted) l acc).
Proof.
  revert acc. induction l as [|x l IH]; intros acc H; simpl; [split; [exact H | reflexivity]|].
  destruct (IH (binaryInsert comparefn (List.length acc) x acc)) as [Hc Hp].
  { apply binaryInsert_chained; [lia | exact H]. }
  split; [exact Hc|].
  rewrite <- Hp, binaryInsert_perm. apply Permutation_middle.
Qed.

End OtherLoopFacts.

Lemma insertionSortByGreater_comparisonSort : comparisonSort insertionSortByGreater.
Proof.
  intros A comparefn l. unfold insertionSortByGreater. rewrite sortByGreater_turned.
  split.
  - symmetry. apply sort_perm.
  - intros x y H. apply chain_turned. apply (sort_chained _ l). exact H.
Qed.

Lemma binaryInsertionSort_comparisonSort : comparisonSort binaryInsertionSort.
Proof.
  intros A comparefn l. unfold binaryInsertionSort, binarySort.
  destruct (binarySort_run comparefn l []) as [Hc Hp]; [constructor|].
  rewrite app_nil_r in Hp. split; [exact Hp|].
  intros x y. apply chained_before, Hc.
Qed.

(** ** Merging and leading runs *)

Section MoreLoopFacts.

Context {A : Type}.
Variable comparefn : A -> A -> Z.

Local Abbreviation chain := (clos_trans A (backs comparefn)).

Local Abbreviation chained := (StronglySorted (clos_trans A (backs comparefn))).

Local Abbreviation chainedDown :=
  (StronglySorted (fun e b : A => clos_trans A (backs comparefn) b e)).

Lemma merge_perm (lower upper : list A) :
  Permutation (merge comparefn lower upper) (lower ++ upper).
Proof.
  revert upper. induction lower as [|a lower IH]; intros upper.
  - destruct upper; reflexivity.
  - induction upper as [|b upper IHu].
    + simpl. rewrite app_nil_r. reflexivity.
    + simpl. destruct (comparefn b a <? 0).
      * simpl in IHu. rewrite IHu.
        apply (Permutation_middle (a :: lower) upper b).
      * rewrite IH. reflexivity.
Qed.

Lemma merge_chained (lower upper : list A) :
  chained lower -> chained upper -> chained (merge comparefn lower upper).
Proof.
  revert upper. induction lower as [|a lower IH]; intros upper Hl Hu.
  - destruct upper; exact Hu.
  - induction upper as [|b upper IHu].
    + exact Hl.
    + pose proof Hl as Hl'. pose proof Hu as Hu'.
      apply StronglySorted_inv in Hl'. destruct Hl' as [Hl1 Ha].
      apply StronglySorted_inv in Hu'. destruct Hu' as [Hu1 Hb].
      rewrite Forall_forall in Ha, Hb.
      simpl. destruct (Z.ltb_spec (comparefn b a) 0) as [Hlt|Hge].
      * assert (Hba : chain b a) by (apply t_step; left; lia).
        constructor; [apply (IHu Hu1)|].
        apply Forall_forall. intros x Hx.
        apply (Permutation_in _ (merge_perm (a :: lower) upper)) in Hx.
        apply in_app_or in Hx. destruct Hx as [[<-|Hx]|Hx].
        -- exact Hba.
        -- eapply t_trans; [exact Hba | apply Ha, Hx].
        -- apply Hb, Hx.
      * assert (Hab : chain a b) by (apply t_step; right; lia).
        constructor; [apply IH; assumption|].
        apply Forall_forall. intros x Hx.
        apply (Permutation_in _ (merge_perm lower (b :: upper))) in Hx.
        apply in_app_or in Hx. destruct Hx as [Hx|[<-|Hx]].
        -- apply Ha, Hx.
        -- exact Hab.
        -- eapply t_trans; [exact Hab | apply Hb, Hx].
Qed.

Lemma mergePairs_perm (runs : list (list A)) :
  Permutation (List.concat runs) (List.concat (mergePairs comparefn runs)).
Proof.
  revert runs. fix go 1. intros [|lower [|upper rest]]; [reflexivity | reflexivity|].
  simpl. rewrite merge_perm, <- (go rest), app_assoc. reflexivity.
Qed.

Lemma mergePairs_length (runs : list (list A)) :
  (List.length (mergePairs comparefn runs) <= List.length runs)%nat.
Proof.
  revert runs. fix go 1. intros [|lower [|upper rest]]; [apply le_n | apply le_n|].
  simpl. pose proof (go rest). lia.
Qed.

Lemma mergePairs_chained (runs : list (list A)) :
  Forall chained runs -> Forall chained (mergePairs comparefn runs).
Proof.
  revert runs. fix go 1. intros [|lower [|upper rest]] H; [exact H | exact H|].
  apply Forall_cons_iff in H. destruct H as [Hl H].
  apply Forall_cons_iff in H. destruct H as [Hu H].
  constructor; [apply merge_chained; assumption | apply go, H].
Qed.

Lemma mergeAll_spec (fuel : nat) (runs : list (list A)) :
  (List.length runs <= S fuel)%nat -> Forall chained runs ->
  chained (mergeAll comparefn fuel runs) /\
  Permutation (List.concat runs) (mergeAll comparefn fuel runs).
Proof.
  revert runs. induction fuel as [|fuel IH]; intros [|lower [|upper rest]] Hn H;
    simpl in Hn; try lia.
  - split; [constructor | reflexivity].
  - apply Forall_cons_iff in H. simpl. rewrite app_nil_r. split; [apply H | reflexivity].
  - split; [constructor | reflexivity].
  - apply Forall_cons_iff in H. simpl. rewrite app_nil_r. split; [apply H | reflexivity].
  - pose proof (mergePairs_length rest) as Hr.
    destruct (IH (mergePairs comparefn (lower :: upper :: rest))) as [Hs Hq].
    { simpl. lia. }
    { apply mergePairs_chained, H. }
    split; [exact Hs|].
    rewrite (mergePairs_perm (lower :: upper :: rest)). exact Hq.
Qed.

Lemma mergeSortBottomUp_spec (l : list A) :
  chained (mergeSortBottomUp comparefn l) /\
  Permutation l (mergeSortBottomUp comparefn l).
Proof.
  unfold mergeSortBottomUp.
  destruct (mergeAll_spec (List.length l) (map (fun x => [x]) l)) as [Hc Hp].
  - rewrite length_map. lia.
  - apply Forall_forall. intros run Hr. apply in_map_iff in Hr.
    destruct Hr as (x & <- & _). repeat constructor.
  - split; [exact Hc|].
    replace (List.concat (map (fun x => [x]) l)) with l in Hp; [exact Hp|].
    clear Hc Hp. induction l as [|x l IHl]; simpl; [reflexivity | f_equal; exact IHl].
Qed.

(** *** The leading run *)

Lemma runAscending_spec (previous : A) (rest : list A) :
  rest = fst (runAscending comparefn previous rest)
         ++ snd (runAscending comparefn previous rest) /\
  chained (previous :: fst (runAscending comparefn previous rest)).
Proof.
  revert previous. induction rest as [|x rest IH]; intros previous; simpl.
  - split; [reflexivity | repeat constructor].
  - destruct (Z.ltb_spec (comparefn x previous) 0) as [Hlt|Hge]; simpl.
    + split; [reflexivity | repeat constructor].
    + destruct (IH x) as [E Hc].
      destruct (runAscending comparefn x rest) as [run others]. simpl in *.
      split; [f_equal; exact E|].
      assert (Hpx : chain previous x) by (apply t_step; right; lia).
      constructor; [exact Hc|].
      constructor; [exact Hpx|].
      apply StronglySorted_inv in Hc. destruct Hc as [_ Hc].
      rewrite Forall_forall in *. intros b Hb.
      eapply t_trans; [exact Hpx | apply Hc, Hb].
Qed.

Lemma runDescending_spec (previous : A) (rest : list A) :
  rest = fst (runDescending comparefn previous rest)
         ++ snd (runDescending comparefn previous rest) /\
  chainedDown (previous :: fst (runDescending comparefn previous rest)).
Proof.
  revert previous. induction rest as [|x rest IH]; intros previous; simpl.
  - split; [reflexivity | repeat constructor].
  - destruct (Z.ltb_spec (comparefn x previous) 0) as [Hlt|Hge]; simpl.
    + destruct (IH x) as [E Hc].
      destruct (runDescending comparefn x rest) as [run others]. simpl in *.
      split; [f_equal; exact E|].
      assert (Hxp : chain x previous) by (apply t_step; left; lia).
      constructor; [exact Hc|].
      constructor; [exact Hxp|].
      apply StronglySorted_inv in Hc. destruct Hc as [_ Hc].
      rewrite Forall_forall in *. intros b Hb.
      eapply t_trans; [apply Hc, Hb | exact Hxp].
    + split; [reflexivity | repeat constructor].
Qed.

Lemma chainedDown_rev (l : list A) : chainedDown l -> chained (rev l).
Proof.
  induction l as [|a l IH]; simpl; intros H; [constructor|].
  apply StronglySorted_inv in H. destruct H as [Hl Ha].
  apply chained_app; [apply IH, Hl | repeat constructor |].
  intros x b Hx [<-|[]]. rewrite Forall_forall in Ha. apply Ha, in_rev, Hx.
Qed.

Lemma countAndMakeRun_spec (l : list A) :
  Permutation l (fst (countAndMakeRun comparefn l) ++ snd (countAndMakeRun comparefn l)) /\
  chained (fst (countAndMakeRun comparefn l)).
Proof.
  destruct l as [|a [|b rest]]; simpl.
  - split; [reflexivity | constructor].
  - split; [reflexivity | repeat constructor].
  - destruct (Z.ltb_spec (comparefn b a) 0) as [Hlt|Hge].
    + destruct (runDescending_spec b rest) as [E Hc].
      destruct (runDescending comparefn b rest) as [run others]. simpl in *.
      assert (Hd : chainedDown (a :: b :: run)).
      { assert (Hba : chain b a) by (apply t_step; left; lia).
        constructor; [exact Hc|]. constructor; [exact Hba|].
        apply StronglySorted_inv in Hc. destruct Hc as [_ Hc].
        rewrite Forall_forall in *. intros x Hx.
        eapply t_trans; [apply Hc, Hx | exact Hba]. }
      split; [|apply (chainedDown_rev (a :: b :: run)), Hd].
      rewrite E at 1.
      change (Permutation ((a :: b :: run) ++ others) (rev (a :: b :: run) ++ others)).
      apply Permutation_app_tail, Permutation_rev.
    + destruct (runAscending_spec b rest) as [E Hc].
      destruct (runAscending comparefn b rest) as [run others]. simpl in *.
      split; [rewrite E at 1; reflexivity|].
      assert (Hab : chain a b) by (apply t_step; right; lia).
      constructor; [exact Hc|]. constructor; [exact Hab|].
      apply StronglySorted_inv in Hc. destruct Hc as [_ Hc].
      rewrite Forall_forall in *. intros x Hx.
      eapply t_trans; [exact Hab | apply Hc, Hx].
Qed.

Lemma runSort_spec (l : list A) :
  chained (runSort comparefn l) /\ Permutation l (runSort comparefn l).
Proof.
  unfold runSort. destruct (countAndMakeRun_spec l) as [Hp Hc].
  destruct (countAndMakeRun comparefn l) as [run others]. simpl in *.
  destruct (binarySort_run comparefn others run Hc) as [Hs Hq].
  split; [exact Hs|].
  rewrite Hp, <- Hq. apply Permutation_app_comm.
Qed.

End MoreLoopFacts.

Lemma mergeSort_comparisonSort : comparisonSort mergeSort.
Proof.
  intros A comparefn l. unfold mergeSort.
  destruct (mergeSortBottomUp_spec comparefn l) as [Hc Hp].
  split; [exact Hp|]. intros x y. apply chained_before, Hc.
Qed.

Lemma runThenBinaryInsertionSort_comparisonSort :
  comparisonSort runThenBinaryInsertionSort.
Proof.
  intros A comparefn l. unfold runThenBinaryInsertionSort.
  destruct (runSort_spec comparefn l) as [Hc Hp].
  split; [exact Hp|]. intros x y. apply chained_before, Hc.
Qed.

(** ** Rules 1 and 2 of the ordering, for every comparison sort *)

Lemma pending_in_front (now : Z) (x y : Task) :
  pending x = true -> pending y = false ->
  compareTasks now x y < 0 /\ 0 < compareTasks now y x.
Proof. compare_cases x y. Qed.

Lemma pendingOverdue_in_front (now : Z) (x y : Task) :
  pendingOverdue now x = true -> pendingOverdue now y = false ->
  compareTasks now x y < 0 /\ 0 < compareTasks now y x.
Proof. compare_cases x y. Qed.

Lemma ordering_front (sorter : Sorter) (now : Z) (P : Task -> bool) :
  comparisonSort sorter ->
  (forall x y, P x = true -> P y = false ->
     compareTasks now x y < 0 /\ 0 < compareTasks now y x) ->
  forall sel l x y,
    before x y (filteredAndSortedTasksBy sorter now sel l) ->
    P y = true -> P x = true.
Proof.
  intros Hs dom sel l x y Hb. unfold filteredAndSortedTasksBy in Hb.
  apply (chain_stays_in_front (compareTasks now) P dom).
  eapply (proj2 (Hs Task (compareTasks now) _)). exact Hb.
Qed.

Lemma ordering_in_by (sorter : Sorter) (now : Z) (sel : option string)
    (l : list Task) (t : Task) :
  comparisonSort sorter ->
  In t (filteredAndSortedTasksBy sorter now sel l) -> In t l.
Proof.
  intros Hs H. unfold filteredAndSortedTasksBy in H.
  apply (Permutation_in _ (Permutation_sym (proj1 (Hs Task (compareTasks now) _)))) in H.
  destruct (Js.truthyString sel); [|exact H].
  apply filter_In in H. apply H.
Qed.

(** C8.  Whatever comparison sort the engine runs, in the output of the
    ordering operation a completed task never stands to the left of a task
    that is not completed. *)
Theorem completed_never_precedes_pending
    (sorter : Sorter) (now : Z) (selectedProjectId : option string)
    (l : list Task) (x y : Task) :
  comparisonSort sorter ->
  completed x = true -> completed y = false ->
  ~ before x y (filteredAndSortedTasksBy sorter now selectedProjectId l).
Proof.
  intros Hs Hx Hy Hb.
  assert (P : pending x = true).
  { apply (ordering_front sorter now pending Hs (pending_in_front now)
             selectedProjectId l x y Hb).
    unfold pending. rewrite Hy. reflexivity. }
  unfold pending in P. rewrite Hx in P. discriminate.
Qed.

Lemma completed_never_precedes_pending_witness :
  ~ before doneTask callHome
      (filteredAndSortedTasksBy binaryInsertionSort sampleNow None
         [doneTask; payRent; callHome; taskB; taskA]).
Proof.
  apply (completed_never_precedes_pending binaryInsertionSort sampleNow None
           [doneTask; payRent; callHome; taskB; taskA] doneTask callHome).
  - exact binaryInsertionSort_comparisonSort.
  - reflexivity.
  - reflexivity.
Defined.

(** C2, as the code has it.  Whatever comparison sort the engine runs: of
    two tasks that are not completed, one with a due date other than
    timestamp 0 that is strictly before the current time and one whose due
    date is not strictly before it (or is missing), the first stands to the
    left of the second in the output, whatever their priorities: the second
    never stands to the left of the first, and when both are in the output
    the first is found before the second.  With A (priority 1, due tomorrow)
    and B (priority 2, due yesterday, not timestamp 0) the output is [B; A]
    for either input order.  The comparator's test
    [dueDate && dueDate < now] reads timestamp 0 as no due date. *)
Theorem overdue_precedes_not_overdue :
  (forall sorter now selectedProjectId l x y,
     comparisonSort sorter ->
     completed x = false -> completed y = false ->
     dueBefore now x = true -> dueDate x <> Some 0 ->
     dueBefore now y = false ->
     let out := filteredAndSortedTasksBy sorter now selectedProjectId l in
     ~ before y x out /\ (In x out -> In y out -> before x y out)) /\
  (forall sorter now a b tomorrow yesterday,
     comparisonSort sorter ->
     completed a = false -> completed b = false ->
     priority a = P1 -> priority b = P2 ->
     dueDate a = Some tomorrow -> dueDate b = Some yesterday ->
     yesterday < now < tomorrow -> yesterday <> 0 ->
     filteredAndSortedTasksBy sorter now None [a; b] = [b; a] /\
     filteredAndSortedTasksBy sorter now None [b; a] = [b; a]).
Proof.
  assert (class : forall now x y,
    completed x = false -> completed y = false ->
    dueBefore now x = true -> dueDate x <> Some 0 -> dueBefore now y = false ->
    pendingOverdue now x = true /\ pendingOverdue now y = false).
  { intros now x y Cx Cy Dx Nx Dy. unfold pendingOverdue. rewrite Cx, Cy. simpl.
    split; [apply dueBefore_isOverdue; assumption|].
    destruct (isOverdue now y) eqn:O; [|reflexivity].
    apply isOverdue_dueBefore in O. congruence. }
  assert (general : forall sorter now sel l x y,
    comparisonSort sorter ->
    completed x = false -> completed y = false ->
    dueBefore now x = true -> dueDate x <> Some 0 -> dueBefore now y = false ->
    ~ before y x (filteredAndSortedTasksBy sorter now sel l)).
  { intros sorter now sel l x y Hs Cx Cy Dx Nx Dy Hb.
    destruct (class now x y Cx Cy Dx Nx Dy) as [Px Py].
    pose proof (ordering_front sorter now (pendingOverdue now) Hs
                  (pendingOverdue_in_front now) sel l y x Hb Px) as Q.
    congruence. }
  split.
  - intros sorter now sel l x y Hs Cx Cy Dx Nx Dy out.
    pose proof (general sorter now sel l x y Hs Cx Cy Dx Nx Dy) as No.
    split; [exact No|].
    intros Ix Iy.
    destruct (in_in_before x y out Ix Iy) as [H|H]; [congruence | exact H | contradiction].
  - intros sorter now a b tomorrow yesterday Hs Ca Cb _ _ Da Db [Hy Ht] Ny.
    assert (Hb : dueBefore now b = true) by (unfold dueBefore; rewrite Db; lia).
    assert (Ha : dueBefore now a = false) by (unfold dueBefore; rewrite Da; lia).
    assert (Nb : dueDate b <> Some 0) by (rewrite Db; congruence).
    assert (two : forall l, Permutation [a; b] l ->
                    ~ before a b (filteredAndSortedTasksBy sorter now None l) ->
                    filteredAndSortedTasksBy sorter now None l = [b; a]).
    { intros l Hl No.
      assert (Hp : Permutation [a; b] (filteredAndSortedTasksBy sorter now None l)).
      { rewrite Hl at 1. apply (proj1 (Hs Task (compareTasks now) l)). }
      apply Permutation_length_2_inv in Hp. destruct Hp as [E|E]; [|exact E].
      exfalso. apply No. rewrite E. exists [], [], []. reflexivity. }
    split; apply two; try reflexivity; try apply perm_swap;
      apply (general sorter now None _ b a Hs Cb Ca Hb Nb Ha).
Qed.

Lemma overdue_precedes_not_overdue_witness :
  (~ before callHome taskB
       (filteredAndSortedTasksBy binaryInsertionSort sampleNow None
          [payRent; callHome; taskB; taskA]) /\
   (In taskB (filteredAndSortedTasksBy binaryInsertionSort sampleNow None
                [payRent; callHome; taskB; taskA]) ->
    In callHome (filteredAndSortedTasksBy binaryInsertionSort sampleNow None
                   [payRent; callHome; taskB; taskA]) ->
    before taskB callHome
      (filteredAndSortedTasksBy binaryInsertionSort sampleNow None
         [payRent; callHome; taskB; taskA]))) /\
  (filteredAndSortedTasksBy binaryInsertionSort sampleNow None [taskA; taskB]
   = [taskB; taskA] /\
   filteredAndSortedTasksBy binaryInsertionSort sampleNow None [taskB; taskA]
   = [taskB; taskA]).
Proof.
  split.
  - apply (proj1 overdue_precedes_not_overdue binaryInsertionSort sampleNow None
             [payRent; callHome; taskB; taskA] taskB callHome
             binaryInsertionSort_comparisonSort);
      try reflexivity; discriminate.
  - apply (proj2 overdue_precedes_not_overdue binaryInsertionSort sampleNow taskA taskB
             (sampleNow + oneDay) (sampleNow - oneDay)
             binaryInsertionSort_comparisonSort);
      try reflexivity; unfold sampleNow, oneDay; lia.
Defined.



(** The five procedures on the list that tells them apart: all keep B, the
    overdue task, in front; they differ in how they place the tasks that the
    comparator cannot order. *)
Example sort_procedures_on_a_mixed_list :
  filteredAndSortedTasksBy insertionSort sampleNow None
    [payRent; callHome; taskB; taskA] = [taskB; payRent; callHome; taskA] /\
  filteredAndSortedTasksBy binaryInsertionSort sampleNow None
    [payRent; callHome; taskB; taskA] = [taskB; taskA; payRent; callHome] /\
  filteredAndSortedTasksBy insertionSortByGreater sampleNow None
    [payRent; callHome; taskB; taskA] = [taskB; taskA; callHome; payRent] /\
  filteredAndSortedTasksBy runThenBinaryInsertionSort sampleNow None
    [payRent; callHome; taskB; taskA] = [taskB; taskA; payRent; callHome] /\
  filteredAndSortedTasksBy mergeSort sampleNow None
    [payRent; callHome; taskB; taskA] = [taskB; taskA; payRent; callHome].
Proof. repeat split; vm_compute; reflexivity. Qed.

(** ** Consistent comparators: the sort that ECMAScript fixes *)

Section Conforming.

Context {A : Type}.
Variable comparefn : A -> A -> Z.

Local Abbreviation tie := (fun c z : A => comparefn c z =? 0).


Lemma consistentOn_flip (l : list A) (a b : A) :
  consistentOn comparefn l -> In a l -> In b l ->
  0 <= comparefn b a -> comparefn a b <= 0.
Proof.
  intros [Ha _] Ia Ib H. pose proof (Ha b a Ib Ia). lia.
Qed.

Lemma consistentOn_tie (l : list A) (a b : A) :
  consistentOn comparefn l -> In a l -> In b l ->
  comparefn a b = 0 -> comparefn b a = 0.
Proof.
  intros [Ha _] Ia Ib H. pose proof (Ha a b Ia Ib). pose proof (Ha b a Ib Ia). lia.
Qed.



(** *** The insertion loop meets the requirement *)

Variable domain : list A.
Hypothesis consistent : consistentOn comparefn domain.





End Conforming.



(** ** The other loops meet the requirement as well *)

Section MoreConforming.

Context {A : Type}.
Variable comparefn : A -> A -> Z.
Variable domain : list A.
Hypothesis consistent : consistentOn comparefn domain.

Local Abbreviation tie := (fun c z : A => comparefn c z =? 0).

Local Abbreviation ordered := (StronglySorted (fun a b : A => comparefn a b <= 0)).

(** Strictly descending, read from left to right. *)
Local Abbreviation falling := (StronglySorted (fun e b : A => comparefn b e < 0)).

Lemma below_strictly (a b c : A) :
  In a domain -> In b domain -> In c domain ->
  comparefn a b < 0 -> comparefn b c <= 0 -> comparefn a c < 0.
Proof.
  intros Ia Ib Ic H1 H2. destruct consistent as [Hs Ht].
  pose proof (Ht a b c Ia Ib Ic). pose proof (Ht c a b Ic Ia Ib).
  pose proof (Ht b c a Ib Ic Ia).
  pose proof (Hs a b Ia Ib). pose proof (Hs b a Ib Ia).
  pose proof (Hs a c Ia Ic). pose proof (Hs c a Ic Ia).
  pose proof (Hs b c Ib Ic). pose proof (Hs c b Ic Ib). lia.
Qed.

Lemma strictly_below (a b c : A) :
  In a domain -> In b domain -> In c domain ->
  comparefn a b <= 0 -> comparefn b c < 0 -> comparefn a c < 0.
Proof.
  intros Ia Ib Ic H1 H2. destruct consistent as [Hs Ht].
  pose proof (Ht a b c Ia Ib Ic). pose proof (Ht c a b Ic Ia Ib).
  pose proof (Ht b c a Ib Ic Ia).
  pose proof (Hs a b Ia Ib). pose proof (Hs b a Ib Ia).
  pose proof (Hs a c Ia Ic). pose proof (Hs c a Ic Ia).
  pose proof (Hs b c Ib Ic). pose proof (Hs c b Ic Ib). lia.
Qed.

Lemma ordered_app (u v : list A) :
  ordered u -> ordered v ->
  (forall a b, In a u -> In b v -> comparefn a b <= 0) ->
  ordered (u ++ v).
Proof.
  induction u as [|a u IH]; simpl; intros Hu Hv Hc; [exact Hv|].
  apply StronglySorted_inv in Hu. destruct Hu as [Hu Ha].
  constructor; [apply IH; auto|].
  apply Forall_app. split; [exact Ha|].
  apply Forall_forall. intros b Hb. apply Hc; auto.
Qed.

Lemma ordered_split (u v : list A) :
  ordered (u ++ v) ->
  ordered u /\ ordered v /\ (forall a b, In a u -> In b v -> comparefn a b <= 0).
Proof.
  induction u as [|a u IH]; simpl; intros H.
  - repeat split; [constructor | exact H | contradiction].
  - apply StronglySorted_inv in H. destruct H as [H Ha].
    destruct (IH H) as (Hu & Hv & Hc). apply Forall_app in Ha. destruct Ha as [Hau Hav].
    repeat split; [constructor; assumption | exact Hv |].
    intros x b [<-|Hx] Hb; [|auto].
    rewrite Forall_forall in Hav. auto.
Qed.

Lemma ordered_sortedBy (l : list A) : ordered l -> sortedBy comparefn l.
Proof.
  intros H x y (l1 & l2 & l3 & ->).
  apply ordered_split in H. destruct H as (_ & H & _).
  apply StronglySorted_inv in H. destruct H as [_ H].
  rewrite Forall_forall in H. apply H.
  apply in_or_app. right. left. reflexivity.
Qed.

Lemma no_tie_above (c pivot : A) (v : list A) :
  In c domain -> In pivot domain -> incl v domain ->
  comparefn c pivot = 0 -> (forall b, In b v -> comparefn pivot b < 0) ->
  filter (tie c) v = [].
Proof.
  intros Ic Ip Hv T Hb. induction v as [|b v IH]; [reflexivity|].
  cbn [filter].
  assert (Ib : In b domain) by (apply Hv; left; reflexivity).
  assert (L : comparefn c b < 0).
  { apply (strictly_below c pivot b); auto; [lia | apply Hb; left; reflexivity]. }
  destruct (Z.eqb_spec (comparefn c b) 0); [lia|].
  apply IH; [intros z Hz; apply Hv; right; exact Hz | intros z Hz; apply Hb; right; exact Hz].
Qed.

(** An element put after everything it is not strictly below and before
    everything it is strictly below keeps the array sorted and stays behind
    its equals. *)
Lemma placed (pivot : A) (u v : list A) :
  In pivot domain -> incl (u ++ v) domain -> ordered (u ++ v) ->
  (forall a, In a u -> 0 <= comparefn pivot a) ->
  (forall b, In b v -> comparefn pivot b < 0) ->
  ordered (u ++ pivot :: v) /\
  forall c, In c domain ->
    filter (tie c) (u ++ pivot :: v) = filter (tie c) ((u ++ v) ++ [pivot]).
Proof.
  intros Ip Hd Ho Hu Hv.
  assert (Du : incl u domain) by (intros z Hz; apply Hd, in_or_app; left; exact Hz).
  assert (Dv : incl v domain) by (intros z Hz; apply Hd, in_or_app; right; exact Hz).
  apply ordered_split in Ho. destruct Ho as (Ou & Ov & Hc).
  split.
  - apply ordered_app; [exact Ou | |].
    + constructor; [exact Ov|]. apply Forall_forall. intros b Hb.
      pose proof (Hv b Hb). lia.
    + intros a b Ha [<-|Hb]; [|auto].
      apply (consistentOn_flip comparefn domain); auto.
  - intros c Ic. rewrite !filter_app. cbn [filter].
    destruct (Z.eqb_spec (comparefn c pivot) 0) as [T|_].
    + rewrite (no_tie_above c pivot v); auto. rewrite app_nil_r. reflexivity.
    + rewrite app_nil_r. reflexivity.
Qed.

(** *** Binary insertion *)

Lemma binaryInsert_place (fuel : nat) (pivot : A) (sorted : list A) :
  (List.length sorted <= fuel)%nat ->
  In pivot domain -> incl sorted domain -> ordered sorted ->
  exists u v, sorted = u ++ v /\
    binaryInsert comparefn fuel pivot sorted = u ++ pivot :: v /\
    (forall a, In a u -> 0 <= comparefn pivot a) /\
    (forall b, In b v -> comparefn pivot b < 0).
Proof.
  intros Hf Ip. revert sorted Hf. induction fuel as [|fuel IH]; intros sorted Hf Hd Ho.
  - destruct sorted; simpl in *; [|lia].
    exists [], []. repeat split; contradiction.
  - destruct sorted as [|a sorted'].
    { exists [], []. repeat split; contradiction. }
    cbn [binaryInsert].
    remember (a :: sorted') as sorted eqn:Es.
    remember (Nat.div2 (List.length sorted)) as mid eqn:Em.
    assert (Hmid : (mid < List.length sorted)%nat).
    { subst mid. apply Nat.lt_div2. subst sorted. simpl. lia. }
    destruct (skipn mid sorted) as [|middle above] eqn:Hs.
    { exfalso. apply (f_equal (@List.length A)) in Hs.
      rewrite length_skipn in Hs. simpl in Hs. lia. }
    pose proof (firstn_skipn mid sorted) as E. rewrite Hs in E.
    assert (Ll : (List.length (firstn mid sorted) <= fuel)%nat).
    { rewrite length_firstn. lia. }
    assert (Lr : (List.length above <= fuel)%nat).
    { apply (f_equal (@List.length A)) in Hs. rewrite length_skipn in Hs.
      simpl in Hs. lia. }
    rewrite <- E in Hd, Ho.
    assert (Dl : incl (firstn mid sorted) domain).
    { intros z Hz. apply Hd, in_or_app. left. exact Hz. }
    assert (Im : In middle domain).
    { apply Hd, in_or_app. right. left. reflexivity. }
    assert (Da : incl above domain).
    { intros z Hz. apply Hd, in_or_app. right. right. exact Hz. }
    apply ordered_split in Ho. destruct Ho as (Ol & Or & Hc).
    pose proof Or as Or'. apply StronglySorted_inv in Or'. destruct Or' as [Oa Hm].
    rewrite Forall_forall in Hm.
    destruct (Z.ltb_spec (comparefn pivot middle) 0) as [Hlt|Hge].
    + destruct (IH (firstn mid sorted) Ll Dl Ol) as (u & v & Euv & Eb & Hu & Hv).
      exists u, (v ++ middle :: above). repeat split.
      * rewrite <- E, Euv, <- app_assoc. reflexivity.
      * rewrite Eb, <- app_assoc. reflexivity.
      * exact Hu.
      * intros b Hb. apply in_app_or in Hb. destruct Hb as [Hb|[<-|Hb]].
        -- apply Hv, Hb.
        -- exact Hlt.
        -- apply (below_strictly pivot middle b); auto.
    + destruct (IH above Lr Da Oa) as (u & v & Euv & Eb & Hu & Hv).
      exists (firstn mid sorted ++ middle :: u), v. repeat split.
      * rewrite <- app_assoc. cbn [app]. rewrite <- Euv. symmetry. exact E.
      * rewrite Eb, <- app_assoc. reflexivity.
      * intros x Hx. apply in_app_or in Hx. destruct Hx as [Hx|[<-|Hx]].
        -- assert (Hxm : comparefn x middle <= 0) by (apply Hc; [exact Hx | left; reflexivity]).
           destruct consistent as [Hsg Htr].
           assert (Ix : In x domain) by (apply Dl, Hx).
           pose proof (consistentOn_flip comparefn domain middle pivot consistent Im Ip Hge).
           pose proof (Htr x middle pivot Ix Im Ip).
           pose proof (Hsg pivot x Ip Ix). lia.
        -- exact Hge.
        -- apply Hu, Hx.
      * exact Hv.
Qed.

Lemma binaryInsert_conforming (l acc : list A) :
  incl l domain -> incl acc domain -> ordered acc ->
  ordered (fold_left (fun sorted pivot =>
                        binaryInsert comparefn (List.length sorted) pivot sorted) l acc) /\
  forall c, In c domain ->
    filter (tie c)
      (fold_left (fun sorted pivot =>
                    binaryInsert comparefn (List.length sorted) pivot sorted) l acc)
    = filter (tie c) (acc ++ l).
Proof.
  revert acc. induction l as [|x l IH]; intros acc Hl Hacc Ho; cbn [fold_left].
  - split; [exact Ho | intros; rewrite app_nil_r; reflexivity].
  - assert (Ix : In x domain) by (apply Hl; left; reflexivity).
    destruct (binaryInsert_place (List.length acc) x acc (le_n _) Ix Hacc Ho)
      as (u & v & Euv & Eb & Hu & Hv).
    rewrite Eb. subst acc.
    destruct (placed x u v Ix Hacc Ho Hu Hv) as [Op Tp].
    destruct (IH (u ++ x :: v)) as [Of Tf].
    + intros z Hz. apply Hl. right. exact Hz.
    + intros z Hz. apply in_app_or in Hz. destruct Hz as [Hz|[<-|Hz]];
        [apply Hacc, in_or_app; left; exact Hz | exact Ix
        | apply Hacc, in_or_app; right; exact Hz].
    + exact Op.
    + split; [exact Of|]. intros c Ic.
      rewrite (Tf c Ic), filter_app, (Tp c Ic), <- filter_app, <- !app_assoc.
      reflexivity.
Qed.


(** *** The leading run *)

Lemma runAscending_ordered (previous : A) (rest : list A) :
  In previous domain -> incl rest domain ->
  ordered (previous :: fst (runAscending comparefn previous rest)).
Proof.
  revert previous. induction rest as [|x rest IH]; intros previous Ip Hd; simpl.
  - repeat constructor.
  - assert (Ix : In x domain) by (apply Hd; left; reflexivity).
    assert (Dr : incl rest domain) by (intros z Hz; apply Hd; right; exact Hz).
    destruct (Z.ltb_spec (comparefn x previous) 0) as [Hlt|Hge]; simpl.
    + repeat constructor.
    + pose proof (IH x Ix Dr) as Hc.
      pose proof (runAscending_spec comparefn x rest) as [E _].
      destruct (runAscending comparefn x rest) as [run others]. simpl in *.
      assert (Hpx : comparefn previous x <= 0).
      { apply (consistentOn_flip comparefn domain); auto. }
      constructor; [exact Hc|].
      constructor; [exact Hpx|].
      apply StronglySorted_inv in Hc. destruct Hc as [_ Hc].
      rewrite Forall_forall in *. intros b Hb.
      destruct consistent as [_ Htr].
      apply (Htr previous x b); auto.
      apply Dr. rewrite E. apply in_or_app. left. exact Hb.
Qed.

Lemma runDescending_falling (previous : A) (rest : list A) :
  In previous domain -> incl rest domain ->
  falling (previous :: fst (runDescending comparefn previous rest)).
Proof.
  revert previous. induction rest as [|x rest IH]; intros previous Ip Hd; simpl.
  - repeat constructor.
  - assert (Ix : In x domain) by (apply Hd; left; reflexivity).
    assert (Dr : incl rest domain) by (intros z Hz; apply Hd; right; exact Hz).
    destruct (Z.ltb_spec (comparefn x previous) 0) as [Hlt|Hge]; simpl.
    + pose proof (IH x Ix Dr) as Hc.
      pose proof (runDescending_spec comparefn x rest) as [E _].
      destruct (runDescending comparefn x rest) as [run others]. simpl in *.
      constructor; [exact Hc|].
      constructor; [exact Hlt|].
      apply StronglySorted_inv in Hc. destruct Hc as [_ Hc].
      rewrite Forall_forall in *. intros b Hb.
      assert (Ib : In b domain).
      { apply Dr. rewrite E. apply in_or_app. left. exact Hb. }
      apply (below_strictly b x previous); auto. pose proof (Hc b Hb). lia.
    + repeat constructor.
Qed.

Lemma no_tie_below (c a : A) (l : list A) :
  In c domain -> In a domain -> incl l domain ->
  comparefn c a = 0 -> (forall b, In b l -> comparefn b a < 0) ->
  filter (tie c) l = [].
Proof.
  intros Ic Ia Hl T Hb. induction l as [|b l IH]; [reflexivity|].
  cbn [filter].
  assert (Ib : In b domain) by (apply Hl; left; reflexivity).
  assert (L : comparefn b c < 0).
  { apply (below_strictly b a c); auto.
    - apply Hb. left. reflexivity.
    - pose proof (consistentOn_tie comparefn domain c a consistent Ic Ia T). lia. }
  destruct consistent as [Hs _]. pose proof (Hs b c Ib Ic).
  destruct (Z.eqb_spec (comparefn c b) 0); [lia|].
  apply IH; [intros z Hz; apply Hl; right; exact Hz | intros z Hz; apply Hb; right; exact Hz].
Qed.

Lemma falling_one_tie (c : A) (l : list A) :
  In c domain -> incl l domain -> falling l ->
  (List.length (filter (tie c) l) <= 1)%nat.
Proof.
  intros Ic. induction l as [|a l IH]; intros Hd H; simpl; [lia|].
  apply StronglySorted_inv in H. destruct H as [Hl Ha].
  assert (Ia : In a domain) by (apply Hd; left; reflexivity).
  assert (Dl : incl l domain) by (intros z Hz; apply Hd; right; exact Hz).
  destruct (Z.eqb_spec (comparefn c a) 0) as [T|_]; [|auto].
  rewrite Forall_forall in Ha.
  rewrite (no_tie_below c a l); auto.
Qed.

Lemma falling_rev (l : list A) :
  incl l domain -> falling l ->
  ordered (rev l) /\
  forall c, In c domain -> filter (tie c) (rev l) = filter (tie c) l.
Proof.
  intros Hd H. split.
  - clear Hd. induction l as [|a l IH]; simpl; [constructor|].
    apply StronglySorted_inv in H. destruct H as [Hl Ha].
    apply ordered_app; [apply IH, Hl | repeat constructor |].
    intros x b Hx [<-|[]]. rewrite Forall_forall in Ha.
    apply in_rev in Hx. pose proof (Ha x Hx). lia.
  - intros c Ic. rewrite filter_rev.
    pose proof (falling_one_tie c l Ic Hd H) as L.
    destruct (filter (tie c) l) as [|a [|b rest]]; [reflexivity | reflexivity|].
    simpl in L. lia.
Qed.

Lemma countAndMakeRun_conforming (l : list A) :
  incl l domain ->
  ordered (fst (countAndMakeRun comparefn l)) /\
  forall c, In c domain ->
    filter (tie c) (fst (countAndMakeRun comparefn l) ++ snd (countAndMakeRun comparefn l))
    = filter (tie c) l.
Proof.
  intros Hd. destruct l as [|a [|b rest]]; unfold countAndMakeRun.
  - split; [constructor | reflexivity].
  - split; [repeat constructor | reflexivity].
  - assert (Ia : In a domain) by (apply Hd; left; reflexivity).
    assert (Ib : In b domain) by (apply Hd; right; left; reflexivity).
    assert (Dr : incl rest domain) by (intros z Hz; apply Hd; right; right; exact Hz).
    destruct (Z.ltb_spec (comparefn b a) 0) as [Hlt|Hge].
    + pose proof (runDescending_falling b rest Ib Dr) as Hc.
      pose proof (runDescending_spec comparefn b rest) as [E _].
      destruct (runDescending comparefn b rest) as [run others]. cbn [fst snd] in *.
      assert (Drun : incl (a :: b :: run) domain).
      { intros z [<-|[<-|Hz]]; auto. apply Dr. rewrite E. apply in_or_app. left. exact Hz. }
      assert (Hf : falling (a :: b :: run)).
      { constructor; [exact Hc|]. constructor; [exact Hlt|].
        apply StronglySorted_inv in Hc. destruct Hc as [_ Hc].
        rewrite Forall_forall in *. intros x Hx.
        apply (below_strictly x b a); auto.
        - apply Drun. right. right. exact Hx.
        - pose proof (Hc x Hx). lia. }
      destruct (falling_rev (a :: b :: run) Drun Hf) as [Or Tr].
      split; [exact Or|].
      intros c Ic. rewrite filter_app, (Tr c Ic), <- filter_app, E. reflexivity.
    + pose proof (runAscending_ordered b rest Ib Dr) as Hc.
      pose proof (runAscending_spec comparefn b rest) as [E _].
      destruct (runAscending comparefn b rest) as [run others]. cbn [fst snd] in *.
      split; [|intros c Ic; rewrite E; reflexivity].
      assert (Hab : comparefn a b <= 0).
      { apply (consistentOn_flip comparefn domain); auto. }
      constructor; [exact Hc|]. constructor; [exact Hab|].
      apply StronglySorted_inv in Hc. destruct Hc as [_ Hc].
      rewrite Forall_forall in *. intros x Hx.
      destruct consistent as [_ Htr]. apply (Htr a b x); auto.
      apply Dr. rewrite E. apply in_or_app. left. exact Hx.
Qed.

Lemma runSort_conforming (l : list A) :
  incl l domain ->
  sortedBy comparefn (runSort comparefn l) /\
  forall c, In c domain -> filter (tie c) (runSort comparefn l) = filter (tie c) l.
Proof.
  intros Hd. unfold runSort.
  destruct (countAndMakeRun_conforming l Hd) as [Ho Ht].
  destruct (countAndMakeRun_spec comparefn l) as [Hp _].
  destruct (countAndMakeRun comparefn l) as [run others]. simpl in *.
  assert (Dall : incl (run ++ others) domain).
  { intros z Hz. apply Hd. apply (Permutation_in _ (Permutation_sym Hp)), Hz. }
  destruct (binaryInsert_conforming others run) as [Of Tf].
  - intros z Hz. apply Dall, in_or_app. right. exact Hz.
  - intros z Hz. apply Dall, in_or_app. left. exact Hz.
  - exact Ho.
  - split; [apply ordered_sortedBy, Of|].
    intros c Ic. rewrite (Tf c Ic). apply Ht, Ic.
Qed.

(** *** Merging *)






End MoreConforming.


Lemma runThenBinaryInsertionSort_conformingSort :
  conformingSort runThenBinaryInsertionSort.
Proof.
  intros A comparefn l Hc. unfold runThenBinaryInsertionSort.
  destruct (runSort_conforming comparefn l Hc l (fun z H => H)) as [Hs Ht].
  repeat split; [|exact Hs | exact Ht].
  apply (runSort_spec comparefn l).
Qed.


(** ** Idempotence *)







(** ** Deleting *)

(** C6 as stated fails when another task of the list carries the same
    identifier.  "Buy milk" and "Water plants", added in the same millisecond,
    both get the clock reading as their id; the confirmed delete of "Buy milk"
    removes "Water plants" as well, and the one reminder it cancels is that of
    "Water plants", the first task [find] meets: the reminder of "Buy milk"
    stays scheduled. *)
Lemma delete_takes_every_task_with_the_id :
  tasks twinWorld = [waterPlants; buyMilk] /\
  id waterPlants = id buyMilk /\
  tasks (exec (deleteTask (id buyMilk) PressDelete) twinWorld) = [] /\
  trace (exec (deleteTask (id buyMilk) PressDelete) twinWorld)
  = trace twinWorld ++ [CancelNotification "reminder-b"; SetItem []].
Proof. repeat split; vm_compute; reflexivity. Qed.

(** C6, as the code has it.  Deleting a task of the list whose identifier no
    other task of the list carries: when the user presses Delete, the reminder
    of the task is cancelled if the task holds an identifier, exactly that
    task leaves the list, and the new list is handed to the store; when the
    user presses Cancel or dismisses the dialog, nothing changes. *)
Theorem delete_removes_the_task
    (w : World) (l1 l2 : list Task) (task : Task) (answer : Answer) :
  tasks w = l1 ++ task :: l2 ->
  (forall other, In other (l1 ++ l2) -> id other <> id task) ->
  (tasks (exec (deleteTask (id task) PressDelete) w) = l1 ++ l2 /\
   trace (exec (deleteTask (id task) PressDelete) w)
   = trace w ++ cancellation task ++ [SetItem (l1 ++ l2)]) /\
  (answer <> PressDelete -> exec (deleteTask (id task) answer) w = w).
Proof.
  intros E Hother.
  assert (Hne : forall y, In y (l1 ++ l2) -> String.eqb (id y) (id task) = false).
  { intros y Hy. apply String.eqb_neq, Hother, Hy. }
  split.
  - destruct (delete_tasks w (id task)) as [Ht Htr].
    rewrite Ht, Htr, E.
    rewrite find_middle.
    2:{ intros y Hy. apply Hne. apply in_or_app. left. exact Hy. }
    2:{ apply String.eqb_refl. }
    rewrite filter_middle.
    2:{ intros y Hy. rewrite (Hne y Hy). reflexivity. }
    2:{ rewrite String.eqb_refl. reflexivity. }
    split; reflexivity.
  - destruct answer; intros H; [reflexivity | congruence | reflexivity].
Qed.

Lemma delete_removes_the_task_witness :
  (tasks (exec (deleteTask (id submitReport) PressDelete)
               (sampleWorld [callHome; submitReport; payRent]))
   = [callHome] ++ [payRent] /\
   trace (exec (deleteTask (id submitReport) PressDelete)
               (sampleWorld [callHome; submitReport; payRent]))
   = [] ++ cancellation submitReport ++ [SetItem ([callHome] ++ [payRent])]) /\
  (PressCancel <> PressDelete ->
   exec (deleteTask (id submitReport) PressCancel)
        (sampleWorld [callHome; submitReport; payRent])
   = sampleWorld [callHome; submitReport; payRent]).
Proof.
  apply (delete_removes_the_task (sampleWorld [callHome; submitReport; payRent])
           [callHome] [payRent] submitReport PressCancel).
  - reflexivity.
  - simpl. intros other [H|[H|[]]]; subst other; discriminate.
Defined.
